(** * wordle-strats: a shallow embedding of [wordle.cpp]

    The definitions follow the source: the bit-packed [Marks], [Word] with
    [Word::compute_marks], [parse_words], the sum-of-squares task of
    [compute_sum_of_squares_ranks] with the [ThreadPool] that runs it, and the
    selection of [print_best_sum_of_squares_ranks].  The theorems about them
    come after all definitions, in the same order. *)

From Stdlib Require Import ZArith Lia Ascii String.
From stdpp Require Import base numbers list strings gmap fin_maps sorting.

Local Open Scope Z_scope.

(** ** Machine integers *)

(** [uint32_t]: a value in [0, 2^32); every operation reduces modulo 2^32. *)
Definition wrap32 (x : Z) : Z := x mod 2 ^ 32.

(** [~x] on [uint32_t]. *)
Definition not32 (x : Z) : Z := Z.lxor (wrap32 x) (2 ^ 32 - 1).

(** [x << s] on [uint32_t]. *)
Definition shl32 (x s : Z) : Z := wrap32 (Z.shiftl x s).

(** [int64_t]: signed overflow has no defined result in C++; the model wraps
    in two's complement, as the hardware does, and the theorems on scores are
    stated in the range where nothing overflows. *)
Definition wrap64 (x : Z) : Z := (x + 2 ^ 63) mod 2 ^ 64 - 2 ^ 63.
Definition add64 (x y : Z) : Z := wrap64 (x + y).
Definition mul64 (x y : Z) : Z := wrap64 (x * y).
Definition INT64_MAX : Z := 2 ^ 63 - 1.

(** [size_t] on a 64-bit target. *)
Definition SIZE_MAX : Z := 2 ^ 64 - 1.
Definition wrap_size (x : Z) : Z := x mod 2 ^ 64.

(** [for (int i = 0; i < n; i++) body(i)] over a state of type [S]. *)
Definition for_range {S : Type} (n : Z) (body : Z → S → S) (s : S) : S :=
  foldl (λ acc i, body i acc) s (seqZ 0 n).

(** ** [std::bitset<5>] *)

Module Bitset.
(** The five bits, bit [i] at weight [2^i]. *)
Abbreviation t := Z.
Definition empty : t := 0.
(** [b.set(i)] *)
Definition set (b : t) (i : Z) : t := Z.lor b (Z.shiftl 1 i).
(** [b[i]] *)
Definition test (b : t) (i : Z) : bool := Z.testbit b i.
End Bitset.

(** ** [class Marks] *)

(** The four states of a two-bit group, as the comment above [marks_]
    documents them: 0 undefined, 1 not in the solution, 2 wrong spot,
    3 right spot. *)
Inductive Mark := Unset | Absent | WrongPosition | Correct.

Global Instance Mark_eq_dec : EqDecision Mark.
Proof. solve_decision. Defined.

Definition mark_of_bits (b : Z) : Mark :=
  match b with
  | 0 => Unset
  | 1 => Absent
  | 2 => WrongPosition
  | _ => Correct
  end.

Module Marks.
(** The only field, [uint32_t marks_]. *)
Abbreviation t := Z.

(** [Marks() : marks_(0)] *)
Definition init : t := 0.

(** [marks_ &= ~((uint32_t)3 << (2*i)); marks_ ^= mask << (2*i);] *)
Definition set (marks_ : t) (i : Z) (mask : Z) : t :=
  let marks_ := Z.land marks_ (not32 (shl32 3 (2 * i))) in
  Z.lxor marks_ (shl32 mask (2 * i)).

Definition set_correct (marks_ : t) (i : Z) : t := set marks_ i 3.
Definition set_wrong_spot (marks_ : t) (i : Z) : t := set marks_ i 2.
Definition set_none (marks_ : t) (i : Z) : t := set marks_ i 1.

(** The class has no reader; [slot] decodes group [i] of the bitmask. *)
Definition bits (marks_ : t) (i : Z) : Z := Z.land (Z.shiftr marks_ (2 * i)) 3.
Definition slot (marks_ : t) (i : Z) : Mark := mark_of_bits (bits marks_ i).
Definition slots (marks_ : t) : list Mark := slot marks_ <$> seqZ 0 5.
End Marks.

(** ** [class Word] *)

(** [std::array<char, 5> word_]. *)
Record Word := MkWord { l0 : ascii; l1 : ascii; l2 : ascii; l3 : ascii; l4 : ascii }.

Global Instance Word_eq_dec : EqDecision Word.
Proof. solve_decision. Defined.

(** [word_[i]], for the indices 0..4 the loops use. *)
Definition at_ (w : Word) (i : Z) : ascii :=
  match i with
  | 0 => l0 w
  | 1 => l1 w
  | 2 => l2 w
  | 3 => l3 w
  | _ => l4 w
  end.

(** [Word(std::span<const char, 5> data)]: the five characters are copied. *)
Definition Word_of_span (data : list ascii) : option Word :=
  match data with
  | [a; b; c; d; e] => Some (MkWord a b c d e)
  | _ => None
  end.

Definition to_string_view (w : Word) : list ascii := at_ w <$> seqZ 0 5.

(** The locals of [compute_marks]. *)
Record Locals := MkLocals { marks : Marks.t; used_target : Bitset.t; used_word : Bitset.t }.

Section compute_marks.
Variables (word target : Word).

(** First loop: positions where both words carry the same letter. *)
Definition pass1_body (i : Z) (st : Locals) : Locals :=
  if Ascii.eqb (at_ word i) (at_ target i)
  then MkLocals (Marks.set_correct (marks st) i)
                (Bitset.set (used_target st) i)
                (Bitset.set (used_word st) i)
  else st.

(** Body of the inner [j] loop of the second loop.  It neither leaves the
    loop nor touches [marks]. *)
Definition pass2_inner (i j : Z) (st : Locals) : Locals :=
  if Ascii.eqb (at_ word i) (at_ target j) && negb (Bitset.test (used_target st) j)
  then MkLocals (marks st)
                (Bitset.set (used_target st) j)
                (Bitset.set (used_word st) i)
  else st.

(** Second loop: [used_word[i]] is read once, before the scan over [j]. *)
Definition pass2_body (i : Z) (st : Locals) : Locals :=
  if negb (Bitset.test (used_word st) i)
  then for_range 5 (pass2_inner i) st
  else st.

(** Third loop. *)
Definition pass3_body (i : Z) (st : Locals) : Locals :=
  if negb (Bitset.test (used_word st) i)
  then MkLocals (Marks.set_none (marks st) i) (used_target st) (used_word st)
  else st.

Definition locals0 : Locals := MkLocals Marks.init Bitset.empty Bitset.empty.
Definition pass1 : Locals := for_range 5 pass1_body locals0.
Definition pass2 : Locals := for_range 5 pass2_body pass1.
Definition pass3 : Locals := for_range 5 pass3_body pass2.

Definition compute_marks : Marks.t := marks pass3.

(** The locals on entry to iteration [i] of the second loop. *)
Definition pass2_before (i : Z) : Locals := for_range i pass2_body pass1.

(** The target positions whose [used_target] bit iteration [i] of the second
    loop turns on. *)
Definition consumed_by (i : Z) : list Z :=
  let before := used_target (pass2_before i) in
  let after := used_target (pass2_body i (pass2_before i)) in
  filter (λ j, Bitset.test after j = true ∧ Bitset.test before j = false) (seqZ 0 5).
End compute_marks.

(** The feedback computation as the specification words it, for comparison:
    pass 2 stops at the first unconsumed target position that carries the
    letter, and marks the guess position [WrongPosition]. *)
Section spec_compute.
Variables (guess target : Word).

(** Body of the scan over [j], with the flag that ends it at the first
    match. *)
Definition spec_pass2_inner (i j : Z) (acc : Locals * bool) : Locals * bool :=
  let '(st, found) := acc in
  if found then acc
  else if Ascii.eqb (at_ guess i) (at_ target j) && negb (Bitset.test (used_target st) j)
  then (MkLocals (Marks.set_wrong_spot (marks st) i)
                 (Bitset.set (used_target st) j)
                 (Bitset.set (used_word st) i), true)
  else acc.

Definition spec_pass2_body (i : Z) (st : Locals) : Locals :=
  if negb (Bitset.test (used_word st) i)
  then fst (for_range 5 (spec_pass2_inner i) (st, false))
  else st.

Definition spec_compute : Marks.t :=
  marks (for_range 5 pass3_body
           (for_range 5 spec_pass2_body (pass1 guess target))).
End spec_compute.

Definition abcde : Word := MkWord "a" "b" "c" "d" "e".
Definition edcba : Word := MkWord "e" "d" "c" "b" "a".
Definition aabbb : Word := MkWord "a" "a" "b" "b" "b".
Definition ababa : Word := MkWord "a" "b" "a" "b" "a".
Definition aabcd : Word := MkWord "a" "a" "b" "c" "d".
Definition efgaa : Word := MkWord "e" "f" "g" "a" "a".
Definition hello : Word := MkWord "h" "e" "l" "l" "o".

(** ** [parse_words] *)

(** The double-quote character, code 34. *)
Definition quote : ascii := "034"%char.

(** [const size_t none = ~(size_t)0;] *)
Definition none : Z := SIZE_MAX.

(** Body of the loop over [i]; the state is [(last_quote, words)].
    [file_contents[i]] is read at an index below the size, and the five
    characters behind [last_quote] lie before the closing quote at [i], so
    the two [None] branches are never taken by [parse_words]. *)
Definition parse_body (file_contents : list ascii) (i : Z)
    (st : Z * list Word) : Z * list Word :=
  let '(last_quote, words) := st in
  match file_contents !! Z.to_nat i with
  | Some c =>
      if Ascii.eqb c quote then
        if last_quote =? none then (i, words)
        else if wrap_size (i - last_quote) =? 6 then
          match Word_of_span (take 5 (drop (Z.to_nat (last_quote + 1)) file_contents)) with
          | Some w => (none, words ++ [w])
          | None => st
          end
        else (* Bad word or parsing error *) st
      else st
  | None => st
  end.

Definition parse_words (file_contents : list ascii) : list Word :=
  snd (for_range (Z.of_nat (length file_contents)) (parse_body file_contents) (none, [])).

(** The reading of the input format the specification gives: the text between
    a quote and the next quote is a quoted span, the quote after it closes it,
    and text outside the spans is dropped.  [inside] holds the span being
    read, if any. *)
Fixpoint quoted_spans_from (inside : option (list ascii)) (text : list ascii)
    : list (list ascii) :=
  match text with
  | [] => []
  | c :: rest =>
      if Ascii.eqb c quote then
        match inside with
        | None => quoted_spans_from (Some []) rest
        | Some span => span :: quoted_spans_from None rest
        end
      else
        match inside with
        | None => quoted_spans_from None rest
        | Some span => quoted_spans_from (Some (span ++ [c])) rest
        end
  end.

Definition quoted_spans (text : list ascii) : list (list ascii) :=
  quoted_spans_from None text.

(** The parser as the specification words it: the spans of length exactly 5,
    in order of appearance, each as a word; the others are skipped. *)
Definition parse_words_spec (text : list ascii) : list Word :=
  omap Word_of_span (quoted_spans text).

(** A text in double quotes. *)
Definition quoted (s : string) : list ascii :=
  quote :: list_ascii_of_string s ++ [quote].

(** ** The task of [compute_sum_of_squares_ranks] *)

(** [marks_count[m]++] on [std::map<Marks, int64_t>]: a missing key is
    inserted with 0 first. *)
Definition histogram_add (marks_count : gmap Z Z) (m : Marks.t) : gmap Z Z :=
  <[m := add64 (default 0 (marks_count !! m)) 1]> marks_count.

(** The first loop of the task. *)
Definition histogram (word : Word) (targets : list Word) : gmap Z Z :=
  foldl (λ marks_count target, histogram_add marks_count (compute_marks word target))
        ∅ targets.

(** The second loop of the task.  The source walks the map in key order; the
    sum does not depend on the order. *)
Definition sum_of_squares (marks_count : gmap Z Z) : Z :=
  map_fold (λ _ count acc, add64 acc (mul64 count count)) 0 marks_count.

(** The value the task stores in [result[i]] for [words[i] = word]. *)
Definition score (word : Word) (targets : list Word) : Z :=
  sum_of_squares (histogram word targets).

(** The sum of the counts of a histogram. *)
Definition histogram_total (marks_count : gmap Z Z) : Z :=
  map_fold (λ _ count acc, count + acc) 0 marks_count.

(** What the specification asks of the score: over the distinct feedback codes
    of the targets, the sum of the squared number of targets with that code. *)
Definition codes (word : Word) (targets : list Word) : list Marks.t :=
  compute_marks word <$> targets.

Definition occurrences (c : Marks.t) (cs : list Marks.t) : Z :=
  Z.of_nat (length (filter (λ c', c' = c) cs)).

Definition sum_Z (l : list Z) : Z := foldr Z.add 0 l.

Definition sum_of_squared_counts (cs : list Marks.t) : Z :=
  sum_Z ((λ c, occurrences c cs * occurrences c cs) <$> remove_dups cs).

(** ** [class ThreadPool] and [compute_sum_of_squares_ranks] *)

(** Where a worker thread stands in [run]: about to take the mutex and test
    [queue_.size()], calling the function it popped (the mutex released), or
    returned from [run]. *)
Inductive Worker := Polling | Calling (func : nat) | Exited.

(** Where the calling thread stands in [compute_sum_of_squares_ranks]: about
    to [submit] the task of index [i], in [wait] about to join thread [j], or
    returned. *)
Inductive Caller := Submitting (i : nat) | Joining (j : nat) | Returned.

(** The shared state.  A queued function is the lambda of index [i]; it is
    kept as [i].  [mtx_] is not a field: every step below is either one
    critical section of the mutex or code that runs outside it. *)
Record Pool := MkPool {
  threads_ : list Worker;
  queue_ : list nat;
  result : list Z;
  caller : Caller
}.

(** Which thread the scheduler lets run next. *)
Inductive Turn := CallerTurn | WorkerTurn (j : nat).

(** [std::vector<int64_t> result(words.size()); ThreadPool pool;] with
    [threads] the value of [hardware_concurrency()]: the constructor starts
    [max(threads, 1)] threads on [run] before anything is submitted. *)
Definition ThreadPool_init (threads n : nat) : Pool :=
  MkPool (replicate (threads `max` 1)%nat Polling) [] (replicate n 0) (Submitting 0).

(** One step of worker [j] in [run]. *)
Definition run_step (words targets : list Word) (j : nat) (p : Pool) : option Pool :=
  match threads_ p !! j with
  | Some Polling =>
      match queue_ p with
      | [] => Some (MkPool (<[j := Exited]> (threads_ p)) [] (result p) (caller p))
      | func :: rest =>
          Some (MkPool (<[j := Calling func]> (threads_ p)) rest (result p) (caller p))
      end
  | Some (Calling i) =>
      w ← words !! i;
      Some (MkPool (<[j := Polling]> (threads_ p)) (queue_ p)
                   (<[i := score w targets]> (result p)) (caller p))
  | _ => None
  end.

(** [submit]: the function is pushed at the back of the queue, under the
    mutex. *)
Definition submit (func : nat) (p : Pool) : Pool :=
  MkPool (threads_ p) (queue_ p ++ [func]) (result p) (caller p).

(** One step of the calling thread: the [submit] of the loop over [i], or one
    [join] of [wait], which can only be taken once that thread has left
    [run]. *)
Definition caller_step (n : nat) (p : Pool) : option Pool :=
  match caller p with
  | Submitting i =>
      if decide (i < n)%nat
      then let p := submit i p in
           Some (MkPool (threads_ p) (queue_ p) (result p) (Submitting (S i)))
      else Some (MkPool (threads_ p) (queue_ p) (result p) (Joining 0))
  | Joining j =>
      match threads_ p !! j with
      | None => Some (MkPool (threads_ p) (queue_ p) (result p) Returned)
      | Some Exited => Some (MkPool (threads_ p) (queue_ p) (result p) (Joining (S j)))
      | Some _ => None
      end
  | Returned => None
  end.

Definition step (words targets : list Word) (t : Turn) (p : Pool) : option Pool :=
  match t with
  | CallerTurn => caller_step (length words) p
  | WorkerTurn j => run_step words targets j p
  end.

Definition run_schedule (words targets : list Word) (schedule : list Turn) (p : Pool)
    : option Pool :=
  foldl (λ s t, s ≫= step words targets t) (Some p) schedule.

(** The vector [compute_sum_of_squares_ranks] returns under a schedule that
    takes the caller to its [return]. *)
Definition compute_sum_of_squares_ranks (threads : nat) (words targets : list Word)
    (schedule : list Turn) : option (list Z) :=
  p ← run_schedule words targets schedule (ThreadPool_init threads (length words));
  match caller p with
  | Returned => Some (result p)
  | _ => None
  end.

(** The table the specification asks for. *)
Definition score_table (words targets : list Word) : list Z :=
  (λ w, score w targets) <$> words.

(** ** [print_best_sum_of_squares_ranks] *)

(** A comparator is a strict weak ordering, as the standard library asks of
    the one handed to [sort] and [nth_element]. *)
Definition strict_weak_order (comp : nat → nat → bool) : Prop :=
  (∀ a b, comp a b = true → comp b a = false) ∧
  (∀ a b c, comp b a = false → comp c b = false → comp c a = false).

(** A range is sorted with respect to [comp] when no later element compares
    below an earlier one. *)
Definition sorted_wrt (comp : nat → nat → bool) (l : list nat) : Prop :=
  ∀ i j a b, (i < j)%nat → l !! i = Some a → l !! j = Some b → comp b a = false.

(** After [nth_element] no element from position [nth] on compares below one
    before [nth]. *)
Definition partitioned_at (comp : nat → nat → bool) (nth : nat) (l : list nat) : Prop :=
  ∀ a b, a ∈ take nth l → b ∈ drop nth l → comp b a = false.

(** [indices.begin() + show_count] has to stay within the range. *)
Definition iterator_at {A} (l : list A) (offset : Z) : option nat :=
  if decide (0 ≤ offset ≤ Z.of_nat (length l)) then Some (Z.to_nat offset) else None.

(** [s.subspan(offset, count)] has to stay within the span. *)
Definition subspan {A} (l : list A) (offset count : Z) : option (list A) :=
  if decide (0 ≤ offset ∧ 0 ≤ count ∧ offset + count ≤ Z.of_nat (length l))
  then Some (take (Z.to_nat count) (drop (Z.to_nat offset) l))
  else None.

(** The lambda [compare], which reads [ranks] without a bounds check. *)
Definition compare (ranks : list Z) (i j : nat) : bool :=
  bool_decide (ranks !!! i < ranks !!! j).

(** The same comparison with the two reads checked. *)
Definition compare_checked (ranks : list Z) (i j : nat) : option bool :=
  a ← ranks !! i; b ← ranks !! j; Some (bool_decide (a < b)).

(** One line of output, [words[idx]] and [ranks[idx]], both reads checked. *)
Definition entry (words : list Word) (ranks : list Z) (idx : nat) : option (Word * Z) :=
  w ← words !! idx; r ← ranks !! idx; Some (w, r).

Section print_best.
(** [std::ranges::nth_element] and [std::ranges::sort] are library code; the
    function is written over any pair of them. *)
Variable std_nth_element : (nat → nat → bool) → nat → list nat → list nat.
Variable std_sort : (nat → nat → bool) → list nat → list nat.

(** The index array after [iota]. *)
Definition iota (n : nat) : list nat := seq 0 n.

(** The value of [show_count] after the clamp. *)
Definition clamp (words : list Word) (show_count : Z) : Z :=
  Z.min show_count (Z.of_nat (length words)).

(** The array [best_indices] after the sort. *)
Definition best_indices (words : list Word) (ranks : list Z) (show_count : Z)
    : option (list nat) :=
  let n := length words in
  let show_count := clamp words show_count in
  let indices := iota n in
  nth ← iterator_at indices show_count;
  let indices := std_nth_element (compare ranks) nth indices in
  best ← subspan indices 0 show_count;
  Some (std_sort (compare ranks) best).

(** The lines written to [std::cout], as (word, rank) pairs; [None] when an
    iterator, a span or an index leaves its range. *)
Definition print_best_sum_of_squares_ranks (words : list Word) (ranks : list Z)
    (show_count : Z) : option (list (Word * Z)) :=
  best ← best_indices words ranks show_count;
  mapM (entry words ranks) best.
End print_best.

(** [print_best_sum_of_squares_ranks(words, ranks, -1)] in [main]: the
    argument is converted to [size_t]. *)
Definition main_show_count : Z := wrap_size (-1).

(** An instance of the two library algorithms: a merge sort orders the whole
    range, which also meets what [nth_element] promises. *)
Definition not_below (comp : nat → nat → bool) (a b : nat) : Prop := comp b a = false.

Global Instance not_below_dec comp a b : Decision (not_below comp a b).
Proof. unfold not_below. apply _. Defined.

Definition sort_impl (comp : nat → nat → bool) (l : list nat) : list nat :=
  merge_sort (not_below comp) l.

Definition nth_element_impl (comp : nat → nat → bool) (nth : nat) (l : list nat)
    : list nat :=
  sort_impl comp l.

(** ** Predicates used by the theorems *)

(** [set] keeps a bitmask below [2^10] below [2^10], writes [mask] into group
    [i] and leaves the other groups alone.  The check is run over all such
    bitmasks further down. *)
Definition set_writes_group (m i mask : Z) : bool :=
  let m' := Marks.set m i mask in
  bool_decide (0 ≤ m' < 1024) &&
  forallb (λ j, bool_decide (Marks.bits m' j = if decide (j = i) then mask else Marks.bits m j))
          (seqZ 0 5).

(** The table has one slot per word, and a slot holds either the 0 it was
    created with or the score of its word. *)
Definition table_inv (words targets : list Word) (p : Pool) : Prop :=
  length (result p) = length words ∧
  ∀ i r, result p !! i = Some r →
         r = 0 ∨ ∃ w, words !! i = Some w ∧ r = score w targets.

(** The task of index [i] has been called: its slot holds the score. *)
Definition task_done (words targets : list Word) (p : Pool) (i : nat) : Prop :=
  ∃ w, words !! i = Some w ∧ result p !! i = Some (score w targets).

(** The pool once every task has been submitted: each task is still queued,
    is being called, or is done; a worker has left [run] only after the queue
    ran empty; and [wait] has gone past exited workers only. *)
Definition submitted_inv (words targets : list Word) (p : Pool) : Prop :=
  length (result p) = length words ∧
  threads_ p ≠ [] ∧
  (∀ i, caller p = Submitting i → i = length words) ∧
  (∀ i, (i < length words)%nat →
        i ∈ queue_ p ∨ Calling i ∈ threads_ p ∨ task_done words targets p i) ∧
  (Exited ∈ threads_ p → queue_ p = []) ∧
  (∀ j j' w, caller p = Joining j → (j' < j)%nat → threads_ p !! j' = Some w → w = Exited) ∧
  (caller p = Returned → ∀ w, w ∈ threads_ p → w = Exited).

(** ** Further definitions from the source *)

(** [bool operator== (const Marks&) const = default]: the bitmasks are
    compared. *)
Definition Marks_eqb (a b : Marks.t) : bool := a =? b.

(** [std::strong_ordering operator<=> (const Marks&) const = default]. *)
Definition Marks_compare (a b : Marks.t) : comparison := a ?= b.

(** The two bits of a state, and the bitmask of five states, group [j] at
    weight [4^j]. *)
Definition bits_of_mark (m : Mark) : Z :=
  match m with
  | Unset => 0
  | Absent => 1
  | WrongPosition => 2
  | Correct => 3
  end.

Definition marks_of_slots (l : list Mark) : Marks.t :=
  foldr (λ m acc, bits_of_mark m + 4 * acc) 0 l.

(** Decoding the five groups of a bitmask and packing them again gives the
    bitmask back; run over the bitmasks below [2^10]. *)
Definition slots_round_trip (m : Z) : bool :=
  marks_of_slots (Marks.slots m) =? m.

(** The locals [(last_quote, words)] of [parse_words] when its loop ends. *)
Definition parse_state (file_contents : list ascii) : Z * list Word :=
  for_range (Z.of_nat (length file_contents)) (parse_body file_contents) (none, []).

(** The five characters of [w] stand in [text] between a quote at index [p]
    and a quote at index [p + 6]. *)
Definition quoted_at (text : list ascii) (p : nat) (w : Word) : Prop :=
  text !! p = Some quote ∧ text !! (p + 6)%nat = Some quote ∧
  take 5 (drop (p + 1) text) = to_string_view w.

(** A word list as the repository stores it: [["hello", "abcde"]]. *)
Definition sample_list : list ascii :=
  list_ascii_of_string "[" ++ quoted "hello" ++ list_ascii_of_string ", " ++
  quoted "abcde" ++ list_ascii_of_string "]".

(** A measure of the work a pool still has to do: what the caller has left,
    twice the queued tasks, and what each worker has left. *)
Definition worker_potential (w : Worker) : nat :=
  match w with
  | Polling => 1
  | Calling _ => 2
  | Exited => 0
  end.

Definition caller_potential (n t : nat) (c : Caller) : nat :=
  match c with
  | Submitting i => 3 * (n - i) + t + 2
  | Joining j => (t - j) + 1
  | Returned => 0
  end.

Definition potential (n : nat) (p : Pool) : nat :=
  caller_potential n (length (threads_ p)) (caller p) +
  2 * length (queue_ p) +
  sum_list_with worker_potential (threads_ p).

(** Every task that is queued or being called is the task of a word. *)
Definition tasks_valid (n : nat) (p : Pool) : Prop :=
  (∀ i, i ∈ queue_ p → (i < n)%nat) ∧ (∀ i, Calling i ∈ threads_ p → (i < n)%nat).

(** The schedule that lets each of the [t] workers run once and only then the
    caller, for all its [n + t + 2] steps. *)
Definition workers_first (t n : nat) : list Turn :=
  (WorkerTurn <$> seq 0 t) ++ replicate (n + t + 2) CallerTurn.

Global Instance Caller_eq_dec : EqDecision Caller.
Proof. solve_decision. Defined.

(** ** [read_whole_file] and [main] *)

(** The files the program can read, by name.  [read_whole_file] opens the
    file and copies the stream up to its end; a file that cannot be opened
    gives a stream that is at its end at once, hence the empty string. *)
Definition read_whole_file (files : gmap string (list ascii)) (file_name : string)
    : list ascii :=
  default [] (files !! file_name).

Section main.
Variable std_nth_element : (nat → nat → bool) → nat → list nat → list nat.
Variable std_sort : (nat → nat → bool) → list nat → list nat.

(** [main], with the lines it writes as its result. *)
Definition main (files : gmap string (list ascii)) (threads : nat) (schedule : list Turn)
    : option (list (Word * Z)) :=
  let words := parse_words (read_whole_file files "words.txt") in
  let targets := parse_words (read_whole_file files "targets.txt") in
  ranks ← compute_sum_of_squares_ranks threads words targets schedule;
  print_best_sum_of_squares_ranks std_nth_element std_sort words ranks main_show_count.
End main.

(** Lines in ascending order of rank. *)
Definition ascending (out : list (Word * Z)) : Prop :=
  ∀ i j e1 e2, (i < j)%nat → out !! i = Some e1 → out !! j = Some e2 → e1.2 ≤ e2.2.

(** Two files for the examples: the guesses "hello" and "abcde", the target
    "hello". *)
Definition sample_files : gmap string (list ascii) :=
  <["words.txt" := sample_list]> (<["targets.txt" := quoted "hello"]> ∅).

Definition sample_schedule : list Turn :=
  [CallerTurn; CallerTurn; WorkerTurn 0; WorkerTurn 0; WorkerTurn 0; WorkerTurn 0;
   WorkerTurn 0; CallerTurn; CallerTurn; CallerTurn].

(** * Theorems *)

(** ** Loops and filters *)

(** A loop keeps an invariant that may mention the loop index. *)
Lemma for_range_ind {St : Type} (P : Z → St → Prop) (n : Z) (body : Z → St → St) (s : St) :
  0 ≤ n →
  P 0 s →
  (∀ i st, 0 ≤ i < n → P i st → P (i + 1) (body i st)) →
  P n (for_range n body s).
Proof.
  intros Hn H0 Hstep. unfold for_range.
  rewrite <- (Z2Nat.id n) by done.
  assert (Z.of_nat (Z.to_nat n) ≤ n) as Hle by lia.
  induction (Z.to_nat n) as [|k IH].
  - done.
  - rewrite seqZ_S, foldl_snoc, Z.add_0_l.
    replace (Z.of_nat (S k)) with (Z.of_nat k + 1) by lia.
    apply Hstep; [lia|]. apply IH. lia.
Qed.

(** One more turn of a loop. *)
Lemma for_range_succ {St : Type} (n : Z) (body : Z → St → St) (s : St) :
  0 ≤ n → for_range (n + 1) body s = body n (for_range n body s).
Proof.
  intros Hn. unfold for_range.
  rewrite <- (Z2Nat.id n) at 1 by done.
  replace (Z.of_nat (Z.to_nat n) + 1) with (Z.of_nat (S (Z.to_nat n))) by lia.
  rewrite seqZ_S, foldl_snoc, Z.add_0_l. by rewrite Z2Nat.id by done.
Qed.

(** Two predicates that agree on the elements of a list filter it alike. *)
Lemma filter_ext_elem {A} (P Q : A → Prop)
    `{!∀ x, Decision (P x)} `{!∀ x, Decision (Q x)} (l : list A) :
  (∀ x, x ∈ l → P x ↔ Q x) → filter P l = filter Q l.
Proof.
  induction l as [|x l IH]; intros Hext; [done|].
  rewrite !filter_cons.
  rewrite IH by (intros y Hy; apply Hext; by right).
  destruct (decide (P x)) as [HP|HP], (decide (Q x)) as [HQ|HQ]; try done;
    exfalso; apply (Hext x) in HP || apply (Hext x) in HQ; done || by left.
Qed.

(** A predicate no element meets filters everything out. *)
Lemma filter_none {A} (P : A → Prop) `{!∀ x, Decision (P x)} (l : list A) :
  (∀ x, x ∈ l → ¬ P x) → filter P l = [].
Proof.
  induction l as [|x l IH]; intros Hnone; [done|].
  rewrite filter_cons_False by (apply Hnone; by left).
  apply IH. intros y Hy. apply Hnone. by right.
Qed.

(** ** [Marks] and [std::bitset] *)

(** The check of [set_writes_group], run over the 1024 bitmasks, the five
    groups and the three masks the class uses. *)
Lemma set_writes_group_all :
  forallb (λ m, forallb (λ i, forallb (set_writes_group m i) [1; 2; 3]) (seqZ 0 5))
          (seqZ 0 1024) = true.
Proof. vm_compute. reflexivity. Qed.

(** [set]: group [i] becomes [mask], every other group keeps its value, and
    the bitmask stays below [2^10]. *)
Lemma Marks_set_bits (m i mask j : Z) :
  0 ≤ m < 1024 → 0 ≤ i < 5 → 1 ≤ mask ≤ 3 → 0 ≤ j < 5 →
  0 ≤ Marks.set m i mask < 1024 ∧
  Marks.bits (Marks.set m i mask) j = if decide (j = i) then mask else Marks.bits m j.
Proof.
  intros Hm Hi Hmask Hj.
  pose proof set_writes_group_all as Hall.
  rewrite forallb_forall in Hall.
  specialize (Hall m). rewrite <- list_elem_of_In, elem_of_seqZ in Hall.
  specialize (Hall ltac:(lia)). rewrite forallb_forall in Hall.
  specialize (Hall i). rewrite <- list_elem_of_In, elem_of_seqZ in Hall.
  specialize (Hall ltac:(lia)). rewrite forallb_forall in Hall.
  specialize (Hall mask). rewrite <- list_elem_of_In in Hall.
  assert (mask ∈ [1; 2; 3]) as Hin.
  { assert (mask = 1 ∨ mask = 2 ∨ mask = 3) as [-> | [-> | ->]] by lia;
      repeat (constructor; try done). }
  specialize (Hall Hin). unfold set_writes_group in Hall.
  apply andb_true_iff in Hall as [Hrange Hbits].
  apply bool_decide_eq_true in Hrange. split; [done|].
  rewrite forallb_forall in Hbits.
  specialize (Hbits j). rewrite <- list_elem_of_In, elem_of_seqZ in Hbits.
  specialize (Hbits ltac:(lia)). by apply bool_decide_eq_true in Hbits.
Qed.

Lemma Marks_set_range (m i mask : Z) :
  0 ≤ m < 1024 → 0 ≤ i < 5 → 1 ≤ mask ≤ 3 → 0 ≤ Marks.set m i mask < 1024.
Proof. intros Hm Hi Hmask. apply (Marks_set_bits m i mask 0); lia. Qed.

(** [set] turns on bit [i] and no other. *)
Lemma Bitset_test_set (b i j : Z) :
  0 ≤ i → 0 ≤ j →
  Bitset.test (Bitset.set b i) j = Bitset.test b j || bool_decide (j = i).
Proof.
  intros Hi Hj. unfold Bitset.test, Bitset.set.
  rewrite Z.lor_spec, Z.shiftl_spec by done. f_equal.
  destruct (decide (j = i)) as [->|Hne].
  - rewrite Z.sub_diag, bool_decide_eq_true_2 by done. done.
  - rewrite bool_decide_eq_false_2 by done.
    destruct (decide (j < i)).
    + apply Z.testbit_neg_r. lia.
    + change 1 with (2 ^ 0). rewrite Z.pow2_bits_eqb by lia. apply Z.eqb_neq. lia.
Qed.

(** ** [Word::compute_marks] *)

Section compute_marks_facts.
Variables (word target : Word).

(** After the first loop: group [j] of [marks] is 3 where the letters at [j]
    agree and 0 elsewhere, and [used_word] has exactly those bits. *)
Lemma pass1_spec :
  0 ≤ marks (pass1 word target) < 1024 ∧
  ∀ j, 0 ≤ j < 5 →
    Marks.bits (marks (pass1 word target)) j =
      (if Ascii.eqb (at_ word j) (at_ target j) then 3 else 0) ∧
    Bitset.test (used_word (pass1 word target)) j =
      Ascii.eqb (at_ word j) (at_ target j).
Proof.
  unfold pass1.
  cut ((λ k st,
    0 ≤ marks st < 1024 ∧
    ∀ j, 0 ≤ j < 5 →
      Marks.bits (marks st) j =
        (if bool_decide (j < k) && Ascii.eqb (at_ word j) (at_ target j) then 3 else 0) ∧
      Bitset.test (used_word st) j =
        bool_decide (j < k) && Ascii.eqb (at_ word j) (at_ target j))
       5 (for_range 5 (pass1_body word target) locals0)).
  { intros [Hrange Hst]. split; [done|]. intros j Hj.
    destruct (Hst j Hj) as [-> ->]. by rewrite bool_decide_eq_true_2 by lia. }
  apply for_range_ind.
  - done.
  - split; [done|]. intros j Hj.
    rewrite bool_decide_eq_false_2 by lia. simpl.
    assert (j = 0 ∨ j = 1 ∨ j = 2 ∨ j = 3 ∨ j = 4) as Hcases by lia.
    destruct Hcases as [-> | [-> | [-> | [-> | ->]]]]; done.
  - intros i st Hi [Hrange Hst]. unfold pass1_body.
    destruct (Ascii.eqb (at_ word i) (at_ target i)) eqn:Heq; simpl.
    + unfold Marks.set_correct.
      split; [apply Marks_set_range; lia|]. intros j Hj.
      destruct (Hst j Hj) as [Hb Hu].
      destruct (Marks_set_bits (marks st) i 3 j) as [_ ->]; [lia..|].
      rewrite Bitset_test_set by lia.
      destruct (decide (j = i)) as [->|Hne].
      * rewrite (bool_decide_eq_true_2 (i < i + 1)), (bool_decide_eq_true_2 (i = i)) by lia.
        rewrite Heq. by rewrite orb_true_r.
      * rewrite Hb, Hu, (bool_decide_eq_false_2 (j = i)), orb_false_r by done.
        by rewrite (bool_decide_ext (j < i + 1) (j < i)) by lia.
    + split; [done|]. intros j Hj. destruct (Hst j Hj) as [-> ->].
      destruct (decide (j = i)) as [->|Hne].
      * rewrite Heq, !andb_false_r. done.
      * by rewrite (bool_decide_ext (j < i + 1) (j < i)) by lia.
Qed.

(** One scan over [j] in the second loop: [marks] is not written, and every
    target position that carries the letter of guess position [i] and is not
    yet used becomes used, not only the first. *)
Lemma pass2_inner_spec (i : Z) (st : Locals) :
  0 ≤ i →
  let st' := for_range 5 (pass2_inner word target i) st in
  marks st' = marks st ∧
  (∀ j, 0 ≤ j < 5 →
     Bitset.test (used_target st') j =
       Bitset.test (used_target st) j || Ascii.eqb (at_ word i) (at_ target j)) ∧
  (∀ k, 0 ≤ k → Bitset.test (used_word st) k = true → Bitset.test (used_word st') k = true) ∧
  (∀ k, 0 ≤ k → k ≠ i → Bitset.test (used_word st') k = Bitset.test (used_word st) k).
Proof.
  intros Hi st'.
  cut ((λ n s,
    marks s = marks st ∧
    (∀ j, 0 ≤ j < 5 →
       Bitset.test (used_target s) j =
         Bitset.test (used_target st) j ||
         (bool_decide (j < n) && Ascii.eqb (at_ word i) (at_ target j))) ∧
    (∀ k, 0 ≤ k → Bitset.test (used_word st) k = true → Bitset.test (used_word s) k = true) ∧
    (∀ k, 0 ≤ k → k ≠ i → Bitset.test (used_word s) k = Bitset.test (used_word st) k))
    5 st').
  { intros (Hm & Ht & Hw). split; [done|]. split; [|done].
    intros j Hj. rewrite (Ht j Hj). by rewrite bool_decide_eq_true_2 by lia. }
  apply for_range_ind; [done| |].
  - split; [done|]. split; [|done]. intros j Hj.
    rewrite bool_decide_eq_false_2 by lia. by rewrite orb_false_r.
  - intros n s Hn (Hm & Ht & Hw & Hw'). unfold pass2_inner.
    destruct (Ascii.eqb (at_ word i) (at_ target n) &&
              negb (Bitset.test (used_target s) n)) eqn:Hcond; simpl.
    + apply andb_true_iff in Hcond as [Heq Hfree].
      split; [done|]. split; [|split].
      * intros j Hj. rewrite Bitset_test_set, (Ht j Hj) by lia.
        destruct (decide (j = n)) as [->|Hne].
        -- rewrite (bool_decide_eq_true_2 (n = n)), (bool_decide_eq_true_2 (n < n + 1)) by lia.
           rewrite Heq. by rewrite !orb_true_r.
        -- rewrite (bool_decide_eq_false_2 (j = n)), orb_false_r by done.
           by rewrite (bool_decide_ext (j < n + 1) (j < n)) by lia.
      * intros k Hk Hset. rewrite Bitset_test_set by lia.
        by rewrite (Hw k Hk Hset).
      * intros k Hk Hne. rewrite Bitset_test_set by lia.
        rewrite (bool_decide_eq_false_2 (k = i)), orb_false_r by done. by apply Hw'.
    + split; [done|]. split; [|done]. intros j Hj. rewrite (Ht j Hj).
      destruct (decide (j = n)) as [->|Hne].
      * rewrite (bool_decide_eq_true_2 (n < n + 1)) by lia.
        rewrite (bool_decide_eq_false_2 (n < n)) by lia.
        apply andb_false_iff in Hcond as [->|Hused].
        -- done.
        -- apply negb_false_iff in Hused. rewrite (Ht n Hj) in Hused.
           rewrite (bool_decide_eq_false_2 (n < n)) in Hused by lia.
           rewrite andb_false_l, orb_false_r in Hused. by rewrite Hused.
      * by rewrite (bool_decide_ext (j < n + 1) (j < n)) by lia.
Qed.

(** One iteration of the second loop never writes [marks] and never clears a
    bit. *)
Lemma pass2_body_spec (i : Z) (st : Locals) :
  0 ≤ i →
  marks (pass2_body word target i st) = marks st ∧
  (∀ k, 0 ≤ k → Bitset.test (used_word st) k = true →
        Bitset.test (used_word (pass2_body word target i st)) k = true) ∧
  (∀ j, 0 ≤ j < 5 → Bitset.test (used_target st) j = true →
        Bitset.test (used_target (pass2_body word target i st)) j = true).
Proof.
  intros Hi. unfold pass2_body.
  destruct (negb (Bitset.test (used_word st) i)); [|done].
  destruct (pass2_inner_spec i st Hi) as (Hm & Ht & Hw & _).
  split; [done|]. split; [done|].
  intros j Hj Hset. rewrite (Ht j Hj), Hset. done.
Qed.

(** The second loop as a whole: [marks] is what the first loop left, and no
    bit of [used_word] is cleared. *)
Lemma pass2_spec :
  marks (pass2 word target) = marks (pass1 word target) ∧
  ∀ k, 0 ≤ k → Bitset.test (used_word (pass1 word target)) k = true →
       Bitset.test (used_word (pass2 word target)) k = true.
Proof.
  unfold pass2.
  apply (for_range_ind (λ _ st,
    marks st = marks (pass1 word target) ∧
    ∀ k, 0 ≤ k → Bitset.test (used_word (pass1 word target)) k = true →
         Bitset.test (used_word st) k = true)); [done|done|].
  intros i st Hi [Hm Hw].
  destruct (pass2_body_spec i st ltac:(lia)) as (Hm' & Hw' & _).
  split; [congruence|]. intros k Hk Hset. apply Hw'; [done|]. by apply Hw.
Qed.

(** The third loop writes 1 into the group of every position that is not
    used, and nothing else. *)
Lemma pass3_spec :
  ∀ j, 0 ≤ j < 5 →
    Marks.bits (marks (pass3 word target)) j =
      if Bitset.test (used_word (pass2 word target)) j
      then Marks.bits (marks (pass2 word target)) j
      else 1.
Proof.
  unfold pass3.
  set (st2 := pass2 word target).
  assert (0 ≤ marks st2 < 1024) as Hrange.
  { unfold st2. rewrite (proj1 pass2_spec). apply pass1_spec. }
  cut ((λ n st,
    0 ≤ marks st < 1024 ∧ used_word st = used_word st2 ∧
    ∀ j, 0 ≤ j < 5 →
      Marks.bits (marks st) j =
        if bool_decide (j < n) && negb (Bitset.test (used_word st2) j)
        then 1 else Marks.bits (marks st2) j)
    5 (for_range 5 pass3_body st2)).
  { intros (_ & _ & Hb) j Hj. rewrite (Hb j Hj).
    rewrite bool_decide_eq_true_2 by lia.
    by destruct (Bitset.test (used_word st2) j). }
  apply for_range_ind; [done| |].
  - split; [done|]. split; [done|]. intros j Hj.
    by rewrite bool_decide_eq_false_2 by lia.
  - intros i st Hi (Hr & Hu & Hb). unfold pass3_body. rewrite Hu.
    destruct (Bitset.test (used_word st2) i) eqn:Hused; simpl.
    + split; [done|]. split; [done|]. intros j Hj. rewrite (Hb j Hj).
      destruct (decide (j = i)) as [->|Hne].
      * by rewrite Hused, !andb_false_r.
      * by rewrite (bool_decide_ext (j < i + 1) (j < i)) by lia.
    + unfold Marks.set_none.
      split; [apply Marks_set_range; lia|]. split; [done|]. intros j Hj.
      destruct (Marks_set_bits (marks st) i 1 j) as [_ ->]; [lia..|].
      destruct (decide (j = i)) as [->|Hne].
      * rewrite (bool_decide_eq_true_2 (i < i + 1)) by lia. by rewrite Hused.
      * rewrite (Hb j Hj). by rewrite (bool_decide_ext (j < i + 1) (j < i)) by lia.
Qed.

(** What [compute_marks] returns, slot by slot: [Correct] where the letters
    agree, [Absent] where the guess position is still unused after the second
    loop, and [Unset] where the second loop used it.  No slot is ever
    [WrongPosition]. *)
Lemma compute_marks_slot (i : Z) :
  0 ≤ i < 5 →
  Marks.slot (compute_marks word target) i =
    if Ascii.eqb (at_ word i) (at_ target i) then Correct
    else if Bitset.test (used_word (pass2 word target)) i then Unset
    else Absent.
Proof.
  intros Hi. unfold Marks.slot, compute_marks.
  rewrite (pass3_spec i Hi), (proj1 pass2_spec).
  destruct pass1_spec as [_ H1]. destruct (H1 i Hi) as [Hb Hu].
  destruct pass2_spec as [_ H2]. rewrite Hb.
  destruct (Ascii.eqb (at_ word i) (at_ target i)) eqn:Heq.
  - rewrite (H2 i) by (lia || done). done.
  - by destruct (Bitset.test (used_word (pass2 word target)) i).
Qed.

(** [set_wrong_spot] is never called: no slot of a result is
    [WrongPosition]. *)
Lemma compute_marks_never_wrong_position (i : Z) :
  0 ≤ i < 5 → Marks.slot (compute_marks word target) i ≠ WrongPosition.
Proof.
  intros Hi. rewrite (compute_marks_slot i Hi).
  destruct (Ascii.eqb _ _); [done|]. by destruct (Bitset.test _ _).
Qed.
End compute_marks_facts.

Section pass2_facts.
Variables (word target : Word).

(** The locals on entry to iteration [i + 1] are those iteration [i] leaves. *)
Lemma pass2_before_succ (i : Z) :
  0 ≤ i →
  pass2_before word target (i + 1) =
  pass2_body word target i (pass2_before word target i).
Proof. apply for_range_succ. Qed.

(** Iteration [i] of the second loop, when guess position [i] is not used
    yet, turns on the bit of every target position that carries its letter and
    is not used yet: the scan does not stop at the first one. *)
Lemma consumed_by_spec (i : Z) :
  0 ≤ i < 5 →
  consumed_by word target i =
    if Bitset.test (used_word (pass2_before word target i)) i then []
    else filter (λ j, at_ word i = at_ target j ∧
                      Bitset.test (used_target (pass2_before word target i)) j = false)
                (seqZ 0 5).
Proof.
  intros Hi. unfold consumed_by, pass2_body.
  set (st := pass2_before word target i).
  destruct (Bitset.test (used_word st) i) eqn:Hused; simpl.
  - apply filter_none. intros j _ [Hon Hoff]. congruence.
  - destruct (pass2_inner_spec word target i st ltac:(lia)) as (_ & Ht & _).
    apply filter_ext_elem. intros j Hj. apply elem_of_seqZ in Hj.
    rewrite (Ht j ltac:(lia)), <- Ascii.eqb_eq.
    destruct (Bitset.test (used_target st) j), (Ascii.eqb (at_ word i) (at_ target j));
      simpl; split; intros [? ?]; done.
Qed.


End pass2_facts.

(** When the two words are the same, the first loop marks every position and
    sets every bit of both bitsets. *)
Lemma pass1_same (w : Word) : pass1 w w = MkLocals 1023 31 31.
Proof.
  destruct w as [a b c d e].
  unfold pass1, for_range, pass1_body. simpl.
  rewrite !Ascii.eqb_refl. reflexivity.
Qed.

(** C8: for every word [w], [compute_marks] of [w] against itself has
    [Correct] in all five slots. *)
Theorem compute_marks_same (w : Word) :
  Marks.slots (compute_marks w w) = replicate 5 Correct.
Proof.
  unfold compute_marks, pass3, pass2. rewrite pass1_same. reflexivity.
Qed.

(** C7, as stated, fails: the feedback of "abcde" against "edcba" is not five
    times [WrongPosition]. *)
Lemma abcde_edcba_not_all_wrong_position :
  Marks.slots (compute_marks abcde edcba) ≠ replicate 5 WrongPosition.
Proof. vm_compute. discriminate. Qed.

(** C7, amended: "abcde" and "edcba" carry the same letter at index 2, so slot
    2 is [Correct]; the guess positions 0, 1, 3 and 4 are not used after the
    first loop, are used after the second, and their slots are neither
    [Correct] nor [Absent]. *)
Theorem compute_marks_abcde_edcba :
  Marks.slot (compute_marks abcde edcba) 2 = Correct ∧
  Forall (λ i, Bitset.test (used_word (pass1 abcde edcba)) i = false ∧
               Bitset.test (used_word (pass2 abcde edcba)) i = true ∧
               Marks.slot (compute_marks abcde edcba) i ≠ Correct ∧
               Marks.slot (compute_marks abcde edcba) i ≠ Absent)
         [0; 1; 3; 4].
Proof.
  split; [reflexivity|].
  repeat constructor; vm_compute; discriminate.
Qed.

(** C2, at the failing input: guess position 0 of "abcde" is matched by the
    second loop with target position 4 of "edcba", and its slot is left
    [Unset]; so are the slots 1, 3 and 4, which the computation of the
    specification marks [WrongPosition]. *)
Theorem compute_marks_leaves_unset :
  consumed_by abcde edcba 0 = [4] ∧
  Marks.slot (compute_marks abcde edcba) 0 = Unset ∧
  Marks.slots (compute_marks abcde edcba) = [Unset; Unset; Correct; Unset; Unset] ∧
  Marks.slots (spec_compute abcde edcba) =
    [WrongPosition; WrongPosition; Correct; WrongPosition; WrongPosition].
Proof. repeat split; reflexivity. Qed.

(** C1, at the failing input: with the guess "aabcd" and the target "efgaa",
    iteration 0 of the second loop turns on the bits of both target positions
    3 and 4, iteration 1 finds none left, and slot 1 ends [Absent], where the
    matching of the specification leaves position 4 to guess position 1. *)
Theorem pass2_consumes_every_match :
  consumed_by aabcd efgaa 0 = [3; 4] ∧
  consumed_by aabcd efgaa 1 = [] ∧
  Marks.slot (compute_marks aabcd efgaa) 1 = Absent ∧
  Marks.slot (spec_compute aabcd efgaa) 1 = WrongPosition.
Proof. repeat split; reflexivity. Qed.

(** The third scenario of the specification, "aabbb" against "ababa", on both
    computations. *)
Example compute_marks_aabbb_ababa :
  Marks.slots (compute_marks aabbb ababa) = [Correct; Unset; Unset; Correct; Absent] ∧
  Marks.slots (spec_compute aabbb ababa) =
    [Correct; WrongPosition; WrongPosition; Correct; Absent].
Proof. split; reflexivity. Qed.

(** ** [parse_words] *)

(** On a text all of whose quoted spans have length 5 the parser returns what
    the specification asks for; [pre] is the text already read, [suf] the rest,
    and [inside] the span that is open after [pre], whose opening quote
    [last_quote] then points at. *)
Lemma parse_loop_well_formed (pre suf : list ascii) (last_quote : Z) (words : list Word)
    (inside : option (list ascii)) :
  Z.of_nat (length (pre ++ suf)) ≤ SIZE_MAX →
  match inside with
  | None => last_quote = none
  | Some span => ∃ pre0, pre = pre0 ++ quote :: span ∧ last_quote = Z.of_nat (length pre0)
  end →
  Forall (λ span, length span = 5%nat) (quoted_spans_from inside suf) →
  snd (foldl (λ acc i, parse_body (pre ++ suf) i acc) (last_quote, words)
             (seqZ (Z.of_nat (length pre)) (Z.of_nat (length suf)))) =
  words ++ omap Word_of_span (quoted_spans_from inside suf).
Proof.
  revert pre last_quote words inside.
  induction suf as [|c rest IH]; intros pre last_quote words inside Hsize Hrel Hall.
  - simpl. by rewrite app_nil_r.
  - replace (Z.of_nat (length (c :: rest))) with (Z.succ (Z.of_nat (length rest)))
      by (simpl; lia).
    rewrite seqZ_cons by lia. rewrite Z.pred_succ. cbn [foldl].
    assert ((pre ++ c :: rest) !! Z.to_nat (Z.of_nat (length pre)) = Some c) as Hc.
    { rewrite Nat2Z.id. by apply list_lookup_middle. }
    assert (Z.succ (Z.of_nat (length pre)) = Z.of_nat (length (pre ++ [c]))) as Hnext.
    { rewrite length_app. simpl. lia. }
    assert (pre ++ c :: rest = (pre ++ [c]) ++ rest) as Hassoc by (by rewrite <- app_assoc).
    unfold parse_body at 2. rewrite Hc. simpl in Hall.
    destruct (Ascii.eqb c quote) eqn:Hq.
    + apply Ascii.eqb_eq in Hq as ->.
      destruct inside as [span|].
      * destruct Hrel as (pre0 & -> & ->).
        apply Forall_cons in Hall as [Hspan Hall].
        pose proof Hsize as Hsize'. rewrite !length_app in Hsize'. simpl in Hsize'.
        assert ((Z.of_nat (length pre0) =? none) = false) as ->.
        { apply Z.eqb_neq. unfold none. lia. }
        rewrite length_app. simpl. rewrite Hspan.
        assert ((wrap_size (Z.of_nat (length pre0 + 6) - Z.of_nat (length pre0)) =? 6) = true) as ->.
        { apply Z.eqb_eq. unfold wrap_size. rewrite Z.mod_small; lia. }
        assert (take 5 (drop (Z.to_nat (Z.of_nat (length pre0) + 1))
                  ((pre0 ++ quote :: span) ++ quote :: rest)) = span) as ->.
        { rewrite <- app_assoc. simpl.
          replace (Z.to_nat (Z.of_nat (length pre0) + 1)) with (length pre0 + 1)%nat by lia.
          rewrite <- Nat.add_1_r, <- drop_drop, drop_app_length. simpl. rewrite drop_0.
          rewrite <- Hspan. apply take_app_length. }
        destruct span as [|a [|b [|c0 [|d [|e [|? ?]]]]]]; try done.
        cbn [Word_of_span omap list_omap].
        rewrite Hassoc.
        replace (Z.succ (Z.of_nat (length pre0 + 6))) with
          (Z.of_nat (length ((pre0 ++ quote :: [a; b; c0; d; e]) ++ [quote])))
          by (rewrite !length_app; simpl; lia).
        rewrite (IH _ none (words ++ [MkWord a b c0 d e]) None); [|by rewrite <- Hassoc|done|done].
        by rewrite <- app_assoc.
      * subst last_quote. rewrite Z.eqb_refl.
        rewrite Hassoc, Hnext.
        rewrite (IH _ (Z.of_nat (length pre)) words (Some [])); [done|by rewrite <- Hassoc| |done].
        by exists pre.
    + rewrite Hassoc, Hnext. cbn [quoted_spans_from]. rewrite Hq.
      destruct inside as [span|].
      * destruct Hrel as (pre0 & -> & ->).
        rewrite (IH _ (Z.of_nat (length pre0)) words (Some (span ++ [c])));
          [done|by rewrite <- Hassoc| |done].
        exists pre0. by rewrite <- app_assoc.
      * by rewrite (IH _ last_quote words None); [|by rewrite <- Hassoc| |].
Qed.

(** On a text all of whose quoted spans have length 5, [parse_words] returns
    them all, in order. *)
Lemma parse_words_well_formed (text : list ascii) :
  Z.of_nat (length text) ≤ SIZE_MAX →
  Forall (λ span, length span = 5%nat) (quoted_spans text) →
  parse_words text = parse_words_spec text.
Proof.
  intros Hsize Hall. unfold parse_words, parse_words_spec, for_range.
  by apply (parse_loop_well_formed [] text none [] None).
Qed.

(** C9, at the failing input: after the six-letter span of
    ["abcdef" "hello"] the parser returns no word at all, where the reading of
    the specification returns "hello". *)
Theorem parse_words_stuck_after_bad_span :
  let text := quoted "abcdef" ++ list_ascii_of_string " " ++ quoted "hello" in
  parse_words text = [] ∧ parse_words_spec text = [hello].
Proof. split; reflexivity. Qed.

(** A short span leaves its opening quote in place as well: the next quote at
    distance 6 closes a word that holds a quote character. *)
Lemma parse_words_word_with_quote :
  let text := quoted "ab" ++ list_ascii_of_string "cd" ++ quoted "hello" in
  parse_words text = [MkWord "a" "b" quote "c" "d"] ∧ parse_words_spec text = [hello].
Proof. split; reflexivity. Qed.

(** ** The histogram and the score *)

(** Within the range of [int64_t] nothing wraps. *)
Lemma wrap64_id (x : Z) : - 2 ^ 63 ≤ x ≤ INT64_MAX → wrap64 x = x.
Proof.
  unfold wrap64, INT64_MAX. intros Hx.
  rewrite Z.mod_small by lia. lia.
Qed.

Lemma occurrences_nonneg c cs : 0 ≤ occurrences c cs.
Proof. unfold occurrences. lia. Qed.

Lemma occurrences_le_length c cs : occurrences c cs ≤ Z.of_nat (length cs).
Proof. unfold occurrences. pose proof (length_filter (λ c', c' = c) cs). lia. Qed.

Lemma occurrences_snoc c cs c' :
  occurrences c (cs ++ [c']) = occurrences c cs + (if decide (c' = c) then 1 else 0).
Proof.
  unfold occurrences. rewrite filter_app, length_app.
  rewrite Nat2Z.inj_add. f_equal.
  rewrite filter_cons, filter_nil. by destruct (decide (c' = c)).
Qed.

Lemma occurrences_pos_elem_of c cs : occurrences c cs ≠ 0 ↔ c ∈ cs.
Proof.
  unfold occurrences. split.
  - intros Hne. destruct (filter (λ c', c' = c) cs) as [|x l] eqn:Hf; [done|].
    assert (Hx : x ∈ filter (λ c', c' = c) cs) by (rewrite Hf; left).
    apply list_elem_of_filter in Hx as [-> ?]. done.
  - intros Hin Hz.
    assert (Hx : c ∈ filter (λ c', c' = c) cs) by (by apply list_elem_of_filter).
    destruct (filter (λ c', c' = c) cs); [by apply elem_of_nil in Hx | simpl in Hz; lia].
Qed.

Lemma histogram_snoc word targets target :
  histogram word (targets ++ [target]) =
  histogram_add (histogram word targets) (compute_marks word target).
Proof. unfold histogram. by rewrite foldl_snoc. Qed.

(** Each bucket of the histogram holds the number of targets with its code,
    and a code no target has is not a key. *)
Lemma histogram_lookup word targets c :
  Z.of_nat (length targets) ≤ INT64_MAX →
  histogram word targets !! c =
    if decide (occurrences c (codes word targets) = 0) then None
    else Some (occurrences c (codes word targets)).
Proof.
  induction targets as [|target targets IH] using rev_ind; intros Hlen.
  - done.
  - rewrite length_app in Hlen. simpl in Hlen.
    rewrite histogram_snoc. unfold codes in *. rewrite fmap_app. simpl.
    rewrite occurrences_snoc. unfold histogram_add.
    set (cs := compute_marks word <$> targets) in *.
    pose proof (occurrences_nonneg c cs) as Hnn.
    pose proof (occurrences_le_length c cs) as Hle.
    assert (length cs = length targets) as Hl by apply length_fmap.
    destruct (decide (compute_marks word target = c)) as [->|Hne].
    + rewrite lookup_insert_eq, IH by lia.
      assert (add64 (default 0 (if decide (occurrences c cs = 0) then None
                                else Some (occurrences c cs))) 1
              = occurrences c cs + 1) as ->.
      { unfold add64. destruct (decide (occurrences c cs = 0)) as [->|]; simpl;
          apply wrap64_id; unfold INT64_MAX in *; lia. }
      destruct (decide (occurrences c cs + 1 = 0)); [lia|done].
    + rewrite lookup_insert_ne, IH by (done || lia).
      by rewrite Z.add_0_r.
Qed.

(** The total of the counts, when a bucket is added or taken out. *)
Lemma histogram_total_insert (m : gmap Z Z) k v :
  m !! k = None → histogram_total (<[k := v]> m) = v + histogram_total m.
Proof.
  intros Hk. unfold histogram_total.
  rewrite map_fold_insert_L; [done| |done]. intros. lia.
Qed.

Lemma histogram_total_delete (m : gmap Z Z) k v :
  m !! k = Some v → histogram_total m = v + histogram_total (delete k m).
Proof.
  intros Hk. unfold histogram_total.
  rewrite (map_fold_delete_L _ _ k v m); [done| |done]. intros. lia.
Qed.

(** One more target adds one to the total. *)
Lemma histogram_total_add word targets target :
  Z.of_nat (length targets) < INT64_MAX →
  histogram_total (histogram_add (histogram word targets) (compute_marks word target)) =
  histogram_total (histogram word targets) + 1.
Proof.
  intros Hlen. unfold histogram_add.
  generalize (compute_marks word target). intros c.
  pose proof (histogram_lookup word targets c ltac:(lia)) as Hc.
  pose proof (occurrences_nonneg c (codes word targets)) as Hnn.
  pose proof (occurrences_le_length c (codes word targets)) as Hle.
  unfold codes in Hle at 2. rewrite length_fmap in Hle.
  revert Hc. generalize (histogram word targets). intros m Hc.
  destruct (decide (occurrences c (codes word targets) = 0)) as [Hz|Hz].
  - rewrite Hc. cbn [from_option id]. rewrite histogram_total_insert by done.
    unfold add64. rewrite wrap64_id by (unfold INT64_MAX; lia). lia.
  - rewrite Hc. cbn [from_option id]. rewrite <- insert_delete_eq.
    rewrite histogram_total_insert by apply lookup_delete_eq.
    rewrite (histogram_total_delete m c _ Hc).
    unfold add64. rewrite wrap64_id by (unfold INT64_MAX in *; lia). lia.
Qed.

(** The total of the counts is the number of targets. *)
Lemma histogram_total_targets (word : Word) (targets : list Word) :
  Z.of_nat (length targets) ≤ INT64_MAX →
  histogram_total (histogram word targets) = Z.of_nat (length targets).
Proof.
  induction targets as [|target targets IH] using rev_ind; intros Hlen.
  - done.
  - rewrite length_app in *. simpl in *.
    rewrite histogram_snoc, histogram_total_add, IH by lia. lia.
Qed.

(** C5: the counts of the histogram of a guess add up to the number of
    targets, for every target list whose length fits the [int64_t] counters:
    every target is counted once. *)
Theorem histogram_total_length (word : Word) (targets : list Word) :
  Z.of_nat (length targets) ≤ INT64_MAX →
  histogram_total (histogram word targets) = Z.of_nat (length targets).
Proof. apply histogram_total_targets. Qed.

Lemma histogram_total_length_witness :
  Z.of_nat (length [abcde; edcba; hello; edcba]) ≤ INT64_MAX ∧
  histogram_total (histogram abcde [abcde; edcba; hello; edcba]) = 4.
Proof.
  split; [vm_compute; discriminate|].
  apply (histogram_total_length abcde [abcde; edcba; hello; edcba]).
  vm_compute. discriminate.
Defined.

Lemma sum_Z_perm (l k : list Z) : l ≡ₚ k → sum_Z l = sum_Z k.
Proof.
  unfold sum_Z. induction 1; simpl; lia.
Qed.

(** For counts that are not negative the sum of the squares is at most the
    square of the sum. *)
Lemma sum_Z_squares_le (l : list Z) :
  Forall (λ v, 0 ≤ v) l →
  0 ≤ sum_Z l ∧ 0 ≤ sum_Z ((λ v, v * v) <$> l) ≤ sum_Z l * sum_Z l.
Proof.
  induction 1 as [|v l Hv _ IH]; [done|].
  rewrite fmap_cons. unfold sum_Z in *. simpl. nia.
Qed.

(** The two loops of the task, in exact arithmetic over the entries of the
    map. *)
Lemma histogram_total_foldr (m : gmap Z Z) :
  histogram_total m = sum_Z ((map_to_list m).*2).
Proof.
  unfold histogram_total. rewrite map_fold_foldr.
  unfold sum_Z. induction (map_to_list m) as [|[k v] l IH]; simpl; [done|].
  by rewrite IH.
Qed.

Lemma sum_Z_cons (v : Z) (l : list Z) : sum_Z (v :: l) = v + sum_Z l.
Proof. done. Qed.

(** The [int64_t] sum of squares is the exact one as long as the squared
    total fits. *)
Lemma foldr_squares_exact (l : list (Z * Z)) :
  Forall (λ v, 0 ≤ v) l.*2 →
  sum_Z l.*2 * sum_Z l.*2 ≤ INT64_MAX →
  foldr (uncurry (λ _ count acc, add64 acc (mul64 count count))) 0 l =
  sum_Z ((λ v, v * v) <$> l.*2).
Proof.
  induction l as [|[k v] l IH]; [done|].
  rewrite !fmap_cons, !sum_Z_cons, Forall_cons. cbn [foldr uncurry snd].
  intros [Hv Hall] Hle.
  destruct (sum_Z_squares_le _ Hall) as (Hs & Hq & Hq').
  rewrite IH by (done || nia).
  unfold add64, mul64.
  rewrite (wrap64_id (v * v)) by (unfold INT64_MAX in *; nia).
  rewrite wrap64_id by (unfold INT64_MAX in *; nia). lia.
Qed.

Lemma sum_of_squares_exact (m : gmap Z Z) :
  map_Forall (λ _ v, 0 ≤ v) m →
  histogram_total m * histogram_total m ≤ INT64_MAX →
  sum_of_squares m = sum_Z ((λ v, v * v) <$> (map_to_list m).*2).
Proof.
  intros Hpos. rewrite histogram_total_foldr.
  unfold sum_of_squares. rewrite map_fold_foldr.
  apply foldr_squares_exact.
  apply Forall_fmap, Forall_forall. intros [k v] Hkv. simpl.
  apply elem_of_map_to_list in Hkv. by apply (Hpos k v).
Qed.

(** The entries of the histogram are the distinct codes, each with its number
    of occurrences. *)
Lemma histogram_to_list word targets :
  Z.of_nat (length targets) ≤ INT64_MAX →
  map_to_list (histogram word targets) ≡ₚ
  (λ c, (c, occurrences c (codes word targets))) <$> remove_dups (codes word targets).
Proof.
  intros Hlen. apply NoDup_Permutation.
  - apply NoDup_map_to_list.
  - apply NoDup_fmap_2; [|apply NoDup_remove_dups]. by intros c c' [= ->].
  - intros [c v]. rewrite elem_of_map_to_list, histogram_lookup by done.
    rewrite list_elem_of_fmap. setoid_rewrite elem_of_remove_dups.
    split.
    + destruct (decide _) as [Hz|Hz]; [done|]. intros [= <-].
      exists c. split; [done|]. by apply occurrences_pos_elem_of.
    + intros (c' & [= -> ->] & Hin). apply occurrences_pos_elem_of in Hin.
      by destruct (decide _).
Qed.

Lemma histogram_nonneg word targets :
  Z.of_nat (length targets) ≤ INT64_MAX →
  map_Forall (λ _ v, 0 ≤ v) (histogram word targets).
Proof.
  intros Hlen c v. rewrite histogram_lookup by done.
  destruct (decide _); [done|]. intros [= <-]. apply occurrences_nonneg.
Qed.

(** C4: the score of a guess is the sum, over the distinct feedback codes of
    the targets, of the squared number of targets with that code, for every
    target list whose squared length fits [int64_t]; and it is 0 for the empty
    target list. *)
Theorem score_sum_of_squared_counts (word : Word) (targets : list Word) :
  Z.of_nat (length targets) * Z.of_nat (length targets) ≤ INT64_MAX →
  score word targets = sum_of_squared_counts (codes word targets) ∧
  score word [] = 0.
Proof.
  intros Hsq. split; [|done].
  assert (Z.of_nat (length targets) ≤ INT64_MAX) as Hlen by nia.
  unfold score. rewrite sum_of_squares_exact.
  - unfold sum_of_squared_counts.
    apply sum_Z_perm. rewrite (histogram_to_list word targets Hlen).
    rewrite <- !list_fmap_compose. done.
  - by apply histogram_nonneg.
  - by rewrite histogram_total_targets.
Qed.

Lemma score_sum_of_squared_counts_witness :
  Z.of_nat (length [abcde; edcba; hello; edcba]) *
    Z.of_nat (length [abcde; edcba; hello; edcba]) ≤ INT64_MAX ∧
  score abcde [abcde; edcba; hello; edcba] = 6 ∧
  sum_of_squared_counts (codes abcde [abcde; edcba; hello; edcba]) = 6.
Proof.
  split; [vm_compute; discriminate|].
  destruct (score_sum_of_squared_counts abcde [abcde; edcba; hello; edcba]) as [Heq _].
  { vm_compute. discriminate. }
  split; [reflexivity | rewrite <- Heq; reflexivity].
Defined.

(** ** [ThreadPool] *)

(** Whatever the schedule, the table has one slot per word, and a slot holds
    either the 0 it was created with or the score of its word. *)
Lemma table_inv_init threads words targets :
  table_inv words targets (ThreadPool_init threads (length words)).
Proof.
  split; [apply length_replicate|]. simpl. intros i r Hi.
  apply lookup_replicate in Hi as [-> _]. by left.
Qed.

Lemma table_inv_step words targets t p p' :
  step words targets t p = Some p' →
  table_inv words targets p → table_inv words targets p'.
Proof.
  intros Hstep [Hlen Hinv]. destruct t as [|j]; simpl in Hstep.
  - unfold caller_step, submit in Hstep.
    destruct (caller p) as [i|k|]; [| |done].
    + destruct (decide (i < length words)%nat); injection Hstep as <-; done.
    + destruct (threads_ p !! k) as [[| |]|]; try done; injection Hstep as <-; done.
  - unfold run_step in Hstep.
    destruct (threads_ p !! j) as [[|i|]|]; try done.
    + destruct (queue_ p); injection Hstep as <-; done.
    + destruct (words !! i) as [w|] eqn:Hw; [|done]. simpl in Hstep.
      injection Hstep as <-. split; simpl.
      * by rewrite length_insert.
      * intros i' r. destruct (decide (i = i')) as [<-|Hne].
        -- intros Hr. apply list_lookup_insert_Some in Hr as [(_ & <- & _)|[? _]]; [|done].
           right. by exists w.
        -- rewrite list_lookup_insert_ne by done. apply Hinv.
Qed.

Lemma run_schedule_None words targets schedule :
  foldl (λ s t, s ≫= step words targets t) None schedule = None.
Proof. by induction schedule. Qed.

Lemma table_inv_run words targets schedule p p' :
  run_schedule words targets schedule p = Some p' →
  table_inv words targets p → table_inv words targets p'.
Proof.
  unfold run_schedule. revert p.
  induction schedule as [|t schedule IH]; intros p Hrun Hinv; simpl in Hrun.
  - by injection Hrun as <-.
  - destruct (step words targets t p) as [p1|] eqn:Hstep.
    + apply (IH p1); [done|]. by eapply table_inv_step.
    + by rewrite run_schedule_None in Hrun.
Qed.

Lemma compute_sum_of_squares_ranks_entries threads words targets schedule table :
  compute_sum_of_squares_ranks threads words targets schedule = Some table →
  length table = length words ∧
  ∀ i r, table !! i = Some r →
         r = 0 ∨ ∃ w, words !! i = Some w ∧ r = score w targets.
Proof.
  unfold compute_sum_of_squares_ranks. intros Hrun.
  destruct (run_schedule _ _ _ _) as [p|] eqn:Hp; [|done]. simpl in Hrun.
  destruct (caller p); try done. injection Hrun as <-.
  eapply table_inv_run; [done|]. apply table_inv_init.
Qed.

Lemma run_schedule_app words targets l1 l2 p :
  run_schedule words targets (l1 ++ l2) p =
  run_schedule words targets l1 p ≫= run_schedule words targets l2.
Proof.
  unfold run_schedule. rewrite foldl_app.
  destruct (foldl _ (Some p) l1) as [p1|]; simpl; [done|].
  apply run_schedule_None.
Qed.

(** The caller alone, taking as many turns as there are words, queues every
    task. *)
Lemma run_schedule_submits words targets ths res (k i : nat) :
  (i + k = length words)%nat →
  run_schedule words targets (replicate k CallerTurn) (MkPool ths (seq 0 i) res (Submitting i)) =
  Some (MkPool ths (seq 0 (length words)) res (Submitting (length words))).
Proof.
  revert i. induction k as [|k IH]; intros i Hik.
  - rewrite Nat.add_0_r in Hik. by subst i.
  - unfold run_schedule in *. simpl. unfold caller_step. simpl.
    rewrite decide_True by lia. simpl.
    replace (seq 0 i ++ [i]) with (seq 0 (S i)) by (by rewrite seq_S).
    apply IH. lia.
Qed.

Lemma list_insert_nil {A} (l : list A) (j : nat) (x : A) : <[j := x]> l = [] → l = [].
Proof.
  intros Hnil. apply (f_equal length) in Hnil. rewrite length_insert in Hnil.
  by destruct l.
Qed.

Lemma elem_of_list_insert {A} (l : list A) (j : nat) (x y : A) :
  y ∈ <[j := x]> l → y = x ∨ y ∈ l.
Proof.
  intros Hy. apply list_elem_of_lookup in Hy as [k Hk].
  apply list_lookup_insert_Some in Hk as [(_ & -> & _)|[_ Hk]]; [by left|].
  right. apply list_elem_of_lookup. eauto.
Qed.

Lemma elem_of_list_insert_other {A} (l : list A) (j : nat) (x y z : A) :
  l !! j = Some z → y ≠ z → y ∈ l → y ∈ <[j := x]> l.
Proof.
  intros Hj Hne Hy. apply list_elem_of_lookup in Hy as [k Hk].
  apply list_elem_of_lookup. exists k.
  rewrite list_lookup_insert_ne; [done|]. intros ->. congruence.
Qed.

Lemma elem_of_list_insert_new {A} (l : list A) (j : nat) (x z : A) :
  l !! j = Some z → x ∈ <[j := x]> l.
Proof.
  intros Hj. apply list_elem_of_lookup. exists j.
  apply list_lookup_insert_eq. by eapply lookup_lt_Some.
Qed.

(** Every step of the pool keeps [submitted_inv]. *)
Lemma submitted_inv_step words targets t p p' :
  step words targets t p = Some p' →
  submitted_inv words targets p → submitted_inv words targets p'.
Proof.
  intros Hstep (Hlen & Hne & Hsub & Htasks & Hexit & Hjoin & Hret).
  destruct t as [|j]; simpl in Hstep.
  - unfold caller_step, submit in Hstep.
    destruct (caller p) as [i|k|] eqn:Hcaller; [| |done].
    + rewrite (Hsub i eq_refl) in Hstep. rewrite decide_False in Hstep by lia.
      injection Hstep as <-. repeat split; simpl; try done.
      intros j j' w [= <-] Hlt. lia.
    + destruct (threads_ p !! k) as [[| |]|] eqn:Hk; try done; injection Hstep as <-;
        repeat split; simpl; try done.
      * intros j j' w [= <-] Hlt Hw.
        destruct (decide (j' = k)) as [->|]; [congruence|].
        apply (Hjoin k j' w eq_refl); [lia|done].
      * intros _ w Hw. apply list_elem_of_lookup in Hw as [j' Hw].
        apply (Hjoin k j' w eq_refl); [|done].
        apply lookup_lt_Some in Hw. apply lookup_ge_None in Hk. lia.
  - unfold run_step in Hstep.
    destruct (threads_ p !! j) as [[|i|]|] eqn:Hj; try done.
    + destruct (queue_ p) as [|i rest] eqn:Hq; injection Hstep as <-;
        unfold task_done in *; repeat split; simpl; try done.
      * intros Hnil. apply Hne. by eapply list_insert_nil.
      * intros i Hi. destruct (Htasks i Hi) as [Hin|[Hin|Hdone]].
        -- by apply elem_of_nil in Hin.
        -- right. left. by eapply elem_of_list_insert_other.
        -- by right; right.
      * intros jj j' w Hc Hlt Hw.
        apply list_lookup_insert_Some in Hw as [(_ & <- & _)|[_ Hw]]; [done|].
        by apply (Hjoin jj j' w).
      * intros Hc w Hw. apply elem_of_list_insert in Hw as [->|Hw]; [done|].
        by apply Hret.
      * intros Hnil. apply Hne. by eapply list_insert_nil.
      * intros i' Hi'. destruct (Htasks i' Hi') as [Hin|[Hin|Hdone]].
        -- apply elem_of_cons in Hin as [->|Hin]; [|by left].
           right. left. by eapply elem_of_list_insert_new.
        -- right. left. by eapply elem_of_list_insert_other.
        -- by right; right.
      * intros Hex. apply elem_of_list_insert in Hex as [?|Hex]; [done|].
        by specialize (Hexit Hex).
      * intros jj j' w Hc Hlt Hw.
        apply list_lookup_insert_Some in Hw as [(<- & <- & _)|[_ Hw]].
        -- by specialize (Hjoin jj j Polling Hc Hlt Hj).
        -- by apply (Hjoin jj j' w).
      * intros Hc w Hw. apply elem_of_list_insert in Hw as [->|Hw]; [|by apply Hret].
        assert (Polling ∈ threads_ p) as Hp by (apply list_elem_of_lookup; eauto).
        by specialize (Hret Hc Polling Hp).
    + destruct (words !! i) as [w|] eqn:Hw; [|done]. simpl in Hstep.
      injection Hstep as <-. unfold task_done in *. repeat split; simpl.
      * by rewrite length_insert.
      * intros Hnil. apply Hne. by eapply list_insert_nil.
      * done.
      * intros i' Hi'.
        assert (i < length (result p))%nat as Hilt.
        { rewrite Hlen. by eapply lookup_lt_Some. }
        destruct (decide (i' = i)) as [->|Hne'].
        { right. right. exists w. split; [done|]. by apply list_lookup_insert_eq. }
        destruct (Htasks i' Hi') as [Hin|[Hin|(w' & Hw' & Hr)]].
        -- by left.
        -- right. left. eapply elem_of_list_insert_other; [done| |done]. congruence.
        -- right. right. exists w'. split; [done|]. simpl. by rewrite list_lookup_insert_ne.
      * intros Hex. apply elem_of_list_insert in Hex as [?|Hex]; [done|]. by apply Hexit.
      * intros jj j' w' Hc Hlt Hw'.
        apply list_lookup_insert_Some in Hw' as [(<- & <- & _)|[_ Hw']].
        -- by specialize (Hjoin jj j (Calling i) Hc Hlt Hj).
        -- by apply (Hjoin jj j' w').
      * intros Hc w' Hw'. apply elem_of_list_insert in Hw' as [->|Hw']; [|by apply Hret].
        assert (Calling i ∈ threads_ p) as Hp by (apply list_elem_of_lookup; eauto).
        by specialize (Hret Hc (Calling i) Hp).
Qed.

Lemma submitted_inv_run words targets schedule p p' :
  run_schedule words targets schedule p = Some p' →
  submitted_inv words targets p → submitted_inv words targets p'.
Proof.
  unfold run_schedule. revert p.
  induction schedule as [|t schedule IH]; intros p Hrun Hinv; simpl in Hrun.
  - by injection Hrun as <-.
  - destruct (step words targets t p) as [p1|] eqn:Hstep.
    + apply (IH p1); [done|]. by eapply submitted_inv_step.
    + by rewrite run_schedule_None in Hrun.
Qed.

(** When the caller submits every task before any worker runs, every schedule
    that takes the caller to its [return] yields the table of the scores. *)
Lemma submit_first_complete threads words targets rest table :
  compute_sum_of_squares_ranks threads words targets
    (replicate (length words) CallerTurn ++ rest) = Some table →
  table = score_table words targets.
Proof.
  unfold compute_sum_of_squares_ranks, ThreadPool_init.
  rewrite run_schedule_app.
  rewrite (run_schedule_submits words targets _ _ (length words) 0) by done. simpl.
  intros Hrun.
  destruct (run_schedule words targets rest _) as [p|] eqn:Hp; [|done]. simpl in Hrun.
  destruct (caller p) eqn:Hcaller; try done. injection Hrun as <-.
  apply submitted_inv_run in Hp.
  - destruct Hp as (Hlen & Hne & _ & Htasks & Hexit & _ & Hret).
    specialize (Hret Hcaller).
    assert (Exited ∈ threads_ p) as Hex.
    { destruct (threads_ p) as [|w ths]; [done|].
      rewrite (Hret w) by left. left. }
    specialize (Hexit Hex).
    apply list_eq. intros i. unfold score_table. rewrite list_lookup_fmap.
    destruct (decide (i < length words)%nat) as [Hi|Hi].
    + destruct (Htasks i Hi) as [Hin|[Hin|(w & Hw & Hr)]].
      * rewrite Hexit in Hin. by apply elem_of_nil in Hin.
      * by specialize (Hret _ Hin).
      * by rewrite Hw, Hr.
    + rewrite !lookup_ge_None_2 by lia. done.
  - repeat split; simpl; try done.
    + apply length_replicate.
    + intros Hnil. apply (f_equal length) in Hnil.
      rewrite length_replicate in Hnil. simpl in Hnil. lia.
    + by intros i [= <-].
    + intros i Hi. left. apply elem_of_seq. lia.
    + intros Hex. apply list_elem_of_lookup in Hex as [j Hj].
      by apply lookup_replicate in Hj as [? _].
Qed.

(** C3, at the failing schedule: one word, one target, one worker.  The
    worker runs first, finds the queue empty and leaves [run]; the task
    submitted afterwards is never called, [wait] returns, and the score table
    holds 0 where the score is 1. *)
Theorem worker_exits_before_submit :
  compute_sum_of_squares_ranks 1 [abcde] [abcde]
    [WorkerTurn 0; CallerTurn; CallerTurn; CallerTurn; CallerTurn] = Some [0] ∧
  score_table [abcde] [abcde] = [1].
Proof. split; reflexivity. Qed.

(** Under the schedule that submits first, the same call returns the score. *)
Lemma worker_runs_after_submit :
  compute_sum_of_squares_ranks 1 [abcde] [abcde]
    [CallerTurn; WorkerTurn 0; WorkerTurn 0; WorkerTurn 0;
     CallerTurn; CallerTurn; CallerTurn] = Some [1].
Proof. reflexivity. Qed.
(** ** [print_best_sum_of_squares_ranks] *)

(** The lambda [compare] is a strict weak ordering. *)
Lemma compare_strict_weak_order (ranks : list Z) : strict_weak_order (compare ranks).
Proof.
  unfold strict_weak_order, compare. split.
  - intros a b. rewrite bool_decide_eq_true, bool_decide_eq_false. lia.
  - intros a b c. rewrite !bool_decide_eq_false. lia.
Qed.

(** Over a table as long as the word list, the unchecked comparison is the
    checked one. *)
Lemma compare_checked_in_bounds (ranks : list Z) (i j : nat) :
  (i < length ranks)%nat → (j < length ranks)%nat →
  compare_checked ranks i j = Some (compare ranks i j).
Proof.
  intros Hi Hj. unfold compare_checked, compare.
  destruct (lookup_lt_is_Some_2 ranks i Hi) as [a Ha].
  destruct (lookup_lt_is_Some_2 ranks j Hj) as [b Hb].
  rewrite !list_lookup_total_alt, Ha, Hb. done.
Qed.

Lemma entry_in_bounds (words : list Word) (ranks : list Z) (idx : nat) :
  length ranks = length words → (idx < length words)%nat →
  ∃ w r, words !! idx = Some w ∧ ranks !! idx = Some r ∧
         entry words ranks idx = Some (w, r).
Proof.
  intros Hlen Hidx. unfold entry.
  destruct (lookup_lt_is_Some_2 words idx Hidx) as [w Hw].
  destruct (lookup_lt_is_Some_2 ranks idx ltac:(lia)) as [r Hr].
  exists w, r. by rewrite Hw, Hr.
Qed.

Lemma entry_Some (words : list Word) (ranks : list Z) (idx : nat) (e : Word * Z) :
  entry words ranks idx = Some e ↔ words !! idx = Some e.1 ∧ ranks !! idx = Some e.2.
Proof.
  unfold entry. destruct e as [w r]. simpl.
  destruct (words !! idx) as [w'|], (ranks !! idx) as [r'|]; simpl;
    (split; [intros [= -> ->] | intros [[= ->] [= ->]]]); done.
Qed.

(** The whole table, read through the index array [iota]. *)
Lemma entries_iota (words : list Word) (ranks : list Z) (out : list (Word * Z)) :
  length ranks = length words →
  Forall2 (λ idx e, entry words ranks idx = Some e) (seq 0 (length words)) out →
  out = zip words ranks.
Proof.
  intros Hlen Hall. apply list_eq. intros i.
  destruct (decide (i < length words)%nat) as [Hi|Hi].
  - destruct (entry_in_bounds words ranks i Hlen Hi) as (w & r & Hw & Hr & He).
    assert (seq 0 (length words) !! i = Some i) as Hseq by (apply lookup_seq; lia).
    destruct (Forall2_lookup_l _ _ _ _ _ Hall Hseq) as (e & -> & He').
    rewrite He in He'. injection He' as <-.
    symmetry. by apply lookup_zip_Some.
  - apply Forall2_length in Hall. rewrite length_seq in Hall.
    rewrite (lookup_ge_None_2 out) by lia.
    symmetry. apply lookup_zip_None. left. apply lookup_ge_None_2. lia.
Qed.

Section print_best_correct.
Variable std_nth_element : (nat → nat → bool) → nat → list nat → list nat.
Variable std_sort : (nat → nat → bool) → list nat → list nat.

(** What the standard library promises of the two algorithms. *)
Hypothesis nth_element_perm : ∀ comp nth l, std_nth_element comp nth l ≡ₚ l.
Hypothesis nth_element_partitioned : ∀ comp nth l,
  strict_weak_order comp → (nth ≤ length l)%nat →
  partitioned_at comp nth (std_nth_element comp nth l).
Hypothesis sort_perm : ∀ comp l, std_sort comp l ≡ₚ l.
Hypothesis sort_sorted : ∀ comp l,
  strict_weak_order comp → sorted_wrt comp (std_sort comp l).

(** The clamp keeps the count between 0 and the number of words. *)
Lemma clamp_bounds (words : list Word) (show_count : Z) :
  0 ≤ show_count →
  0 ≤ clamp words show_count ≤ Z.of_nat (length words).
Proof. unfold clamp. lia. Qed.

(** The array [best_indices]: it exists, and it holds [clamp] distinct indices
    of the table, sorted by rank, none of them ranked above an index left
    out. *)
Lemma best_indices_correct (words : list Word) (ranks : list Z) (show_count : Z) :
  0 ≤ show_count →
  ∃ best,
    best_indices std_nth_element std_sort words ranks show_count = Some best ∧
    NoDup best ∧
    (∀ idx, idx ∈ best → (idx < length words)%nat) ∧
    Z.of_nat (length best) = clamp words show_count ∧
    sorted_wrt (compare ranks) best ∧
    (∀ idx b, (idx < length words)%nat → idx ∉ best → b ∈ best →
              compare ranks idx b = false) ∧
    (Z.of_nat (length words) ≤ show_count → best ≡ₚ seq 0 (length words)).
Proof.
  intros Hk. pose proof (clamp_bounds words show_count Hk) as Hc.
  unfold best_indices, iterator_at, subspan, iota.
  set (k := clamp words show_count) in *.
  set (n := length words) in *.
  rewrite length_seq.
  rewrite decide_True by lia. simpl.
  set (indices := std_nth_element (compare ranks) (Z.to_nat k) (seq 0 n)).
  assert (indices ≡ₚ seq 0 n) as Hperm by apply nth_element_perm.
  assert (length indices = n) as Hlen.
  { rewrite (Permutation_length Hperm). apply length_seq. }
  rewrite decide_True by lia. simpl. rewrite drop_0.
  set (prefix := take (Z.to_nat k) indices).
  assert (std_sort (compare ranks) prefix ≡ₚ prefix) as Hsort by apply sort_perm.
  assert (NoDup indices) as Hnd by (rewrite Hperm; apply NoDup_seq).
  rewrite <- (take_drop (Z.to_nat k) indices) in Hnd.
  apply NoDup_app in Hnd as (Hnd1 & Hdisj & Hnd2). fold prefix in Hnd1, Hdisj.
  assert (∀ idx, idx ∈ indices ↔ (idx < n)%nat) as Hin.
  { intros idx. rewrite Hperm, elem_of_seq. lia. }
  eexists. split; [done|]. repeat split.
  - by rewrite Hsort.
  - intros idx. rewrite Hsort. intros Hidx. apply Hin.
    rewrite <- (take_drop (Z.to_nat k) indices). apply elem_of_app. by left.
  - rewrite (Permutation_length Hsort). unfold prefix.
    rewrite length_take. lia.
  - apply sort_sorted, compare_strict_weak_order.
  - intros idx b Hidx Hout Hb. rewrite Hsort in Hout, Hb.
    apply Hin in Hidx. rewrite <- (take_drop (Z.to_nat k) indices) in Hidx.
    apply elem_of_app in Hidx as [Hidx|Hidx]; [done|].
    apply (nth_element_partitioned (compare ranks) (Z.to_nat k) (seq 0 n));
      [apply compare_strict_weak_order | rewrite length_seq; lia | done | done].
  - intros Hall. rewrite Hsort. unfold prefix.
    assert (k = Z.of_nat n) as -> by (unfold k, clamp; lia).
    rewrite take_ge by lia. done.
Qed.

(** C10: for every word list with its table of ranks and every count, the
    count passed to [main] included, the clamped count lies between 0 and the
    number of words, the iterator [indices.begin() + show_count] and the span
    [subspan(0, show_count)] stay within the index array, every index of that
    array is below the sizes of [words] and [ranks], so that the reads of the
    comparison and of the output loop are in bounds, and the function runs to
    its end. *)
Theorem print_best_in_bounds (words : list Word) (ranks : list Z) (show_count : Z) :
  length ranks = length words →
  0 ≤ show_count →
  let n := length words in
  let k := clamp words show_count in
  let indices := std_nth_element (compare ranks) (Z.to_nat k) (iota n) in
  k = Z.min show_count (Z.of_nat n) ∧
  0 ≤ k ≤ Z.of_nat n ∧
  iterator_at (iota n) k = Some (Z.to_nat k) ∧
  subspan indices 0 k = Some (take (Z.to_nat k) indices) ∧
  (∀ i j, i ∈ indices → j ∈ indices →
          compare_checked ranks i j = Some (compare ranks i j)) ∧
  (∃ best, best_indices std_nth_element std_sort words ranks show_count = Some best ∧
           ∀ idx, idx ∈ best → is_Some (words !! idx) ∧ is_Some (ranks !! idx)) ∧
  is_Some (print_best_sum_of_squares_ranks std_nth_element std_sort words ranks show_count) ∧
  is_Some (print_best_sum_of_squares_ranks std_nth_element std_sort words ranks
             main_show_count).
Proof.
  intros Hlen Hk n k indices.
  pose proof (clamp_bounds words show_count Hk) as Hc. fold k n in Hc.
  assert (indices ≡ₚ seq 0 n) as Hperm by apply nth_element_perm.
  assert (length indices = n) as Hlen'.
  { rewrite (Permutation_length Hperm). apply length_seq. }
  assert (∀ count, 0 ≤ count →
    is_Some (print_best_sum_of_squares_ranks std_nth_element std_sort words ranks count))
    as Hruns.
  { intros count Hcount.
    destruct (best_indices_correct words ranks count Hcount)
      as (best & Hbest & _ & Hlt & _).
    unfold print_best_sum_of_squares_ranks. rewrite Hbest. simpl.
    apply mapM_is_Some, Forall_forall. intros idx Hidx.
    destruct (entry_in_bounds words ranks idx Hlen (Hlt idx Hidx))
      as (w & r & _ & _ & He).
    simpl. by rewrite He. }
  split; [done|]. split; [done|]. split.
  { unfold iterator_at, iota. rewrite length_seq. by rewrite decide_True by lia. }
  split.
  { unfold subspan. rewrite decide_True by lia. by rewrite drop_0. }
  split.
  { intros i j Hi Hj. rewrite Hperm, elem_of_seq in Hi, Hj.
    apply compare_checked_in_bounds; lia. }
  split.
  { destruct (best_indices_correct words ranks show_count Hk)
      as (best & Hbest & _ & Hlt & _).
    exists best. split; [done|]. intros idx Hidx.
    split; apply lookup_lt_is_Some_2; specialize (Hlt idx Hidx); lia. }
  split; [by apply Hruns|]. apply Hruns. by vm_compute.
Qed.

(** C6: over a guess list of length [n] with its table of [n] ranks, the
    function writes exactly [min(show_count, n)] lines; they are the entries
    of distinct indices of the table; their ranks ascend; no entry left out
    has a rank strictly below that of a line written; a count of 0 gives no
    line; and a count of [n] or more gives all [n] entries. *)
Theorem print_best_top_k (words : list Word) (ranks : list Z) (show_count : Z) :
  length ranks = length words →
  0 ≤ show_count →
  ∃ best out,
    print_best_sum_of_squares_ranks std_nth_element std_sort words ranks show_count
      = Some out ∧
    Forall2 (λ idx e, words !! idx = Some e.1 ∧ ranks !! idx = Some e.2) best out ∧
    NoDup best ∧
    Z.of_nat (length out) = Z.min show_count (Z.of_nat (length words)) ∧
    (∀ i j e1 e2, (i < j)%nat → out !! i = Some e1 → out !! j = Some e2 →
                  e1.2 ≤ e2.2) ∧
    (∀ idx w r e, idx ∉ best → words !! idx = Some w → ranks !! idx = Some r →
                  e ∈ out → e.2 ≤ r) ∧
    (show_count = 0 → out = []) ∧
    (Z.of_nat (length words) ≤ show_count → out ≡ₚ zip words ranks).
Proof.
  intros Hlen Hk.
  destruct (best_indices_correct words ranks show_count Hk)
    as (best & Hbest & Hnd & Hlt & Hsize & Hsorted & Hpart & Hall).
  assert (is_Some (mapM (entry words ranks) best)) as [out Hout].
  { apply mapM_is_Some, Forall_forall. intros idx Hidx.
    destruct (entry_in_bounds words ranks idx Hlen (Hlt idx Hidx))
      as (w & r & _ & _ & He).
    simpl. by rewrite He. }
  pose proof Hout as Hout2. apply mapM_Some in Hout2.
  assert (Forall2 (λ idx e, words !! idx = Some e.1 ∧ ranks !! idx = Some e.2) best out)
    as Hentries.
  { eapply Forall2_impl; [done|]. intros idx e. by rewrite entry_Some. }
  exists best, out.
  split; [unfold print_best_sum_of_squares_ranks; by rewrite Hbest|].
  split; [done|]. split; [done|].
  assert (length best = length out) as Hlen_out by (by eapply Forall2_length).
  split; [unfold clamp in Hsize; lia|]. split.
  { intros i j e1 e2 Hij H1 H2.
    destruct (Forall2_lookup_r _ _ _ _ _ Hentries H1) as (a & Ha & _ & Hra).
    destruct (Forall2_lookup_r _ _ _ _ _ Hentries H2) as (b & Hb & _ & Hrb).
    pose proof (Hsorted i j a b Hij Ha Hb) as Hcmp.
    unfold compare in Hcmp. apply bool_decide_eq_false in Hcmp.
    rewrite !list_lookup_total_alt, Hra, Hrb in Hcmp. simpl in Hcmp. lia. }
  split.
  { intros idx w r e Hnotin Hw Hr He.
    apply list_elem_of_lookup in He as [i Hi].
    destruct (Forall2_lookup_r _ _ _ _ _ Hentries Hi) as (b & Hb & _ & Hrb).
    assert (b ∈ best) as Hbin by (apply list_elem_of_lookup; eauto).
    assert (idx < length words)%nat as Hidx by (by eapply lookup_lt_Some).
    pose proof (Hpart idx b Hidx Hnotin Hbin) as Hcmp.
    unfold compare in Hcmp. apply bool_decide_eq_false in Hcmp.
    rewrite !list_lookup_total_alt, Hr, Hrb in Hcmp. simpl in Hcmp. lia. }
  split.
  { intros ->. unfold clamp in Hsize.
    destruct out; [done|]. simpl in *. lia. }
  intros Hge. specialize (Hall Hge).
  destruct (Permutation_Forall2 Hall Hout2) as (out' & Hperm & Hout').
  rewrite Hperm. by rewrite (entries_iota words ranks out' Hlen Hout').
Qed.
End print_best_correct.

(** The merge sort meets both contracts. *)
Lemma StronglySorted_lookup {A} (R : relation A) (l : list A) :
  StronglySorted R l →
  ∀ i j a b, (i < j)%nat → l !! i = Some a → l !! j = Some b → R a b.
Proof.
  induction 1 as [|x l Hl IH Hx]; intros i j a b Hij Ha Hb; [done|].
  destruct j as [|j]; [lia|]. simpl in Hb.
  destruct i as [|i]; simpl in Ha.
  - injection Ha as <-. rewrite Forall_forall in Hx.
    apply Hx, list_elem_of_lookup. eauto.
  - apply (IH i j); [lia|done|done].
Qed.

Lemma not_below_transitive comp : strict_weak_order comp → Transitive (not_below comp).
Proof. intros [_ Htrans] a b c. unfold not_below. apply Htrans. Qed.

Lemma not_below_total comp : strict_weak_order comp → Total (not_below comp).
Proof.
  intros [Hasym _] a b. unfold not_below.
  destruct (comp b a) eqn:Hba; [right; by apply Hasym | by left].
Qed.

Lemma sort_impl_perm comp l : sort_impl comp l ≡ₚ l.
Proof. apply merge_sort_Permutation. Qed.

Lemma sort_impl_strongly_sorted comp l :
  strict_weak_order comp → StronglySorted (not_below comp) (sort_impl comp l).
Proof.
  intros Hswo. pose proof (not_below_transitive comp Hswo).
  pose proof (not_below_total comp Hswo).
  by apply StronglySorted_merge_sort.
Qed.

Lemma sort_impl_sorted comp l : strict_weak_order comp → sorted_wrt comp (sort_impl comp l).
Proof.
  intros Hswo i j a b Hij Ha Hb.
  by apply (StronglySorted_lookup _ _ (sort_impl_strongly_sorted comp l Hswo) i j).
Qed.

Lemma nth_element_impl_perm comp nth l : nth_element_impl comp nth l ≡ₚ l.
Proof. apply sort_impl_perm. Qed.

Lemma nth_element_impl_partitioned comp nth l :
  strict_weak_order comp → (nth ≤ length l)%nat →
  partitioned_at comp nth (nth_element_impl comp nth l).
Proof.
  intros Hswo _ a b Ha Hb. unfold nth_element_impl in *.
  pose proof (sort_impl_strongly_sorted comp l Hswo) as Hs.
  rewrite <- (take_drop nth (sort_impl comp l)) in Hs.
  by apply (StronglySorted_app_1_elem_of _ _ _ a b Hs).
Qed.

Lemma print_best_in_bounds_witness :
  length [5; 1; 3] = length [abcde; edcba; hello] ∧
  0 ≤ main_show_count ∧
  clamp [abcde; edcba; hello] main_show_count = 3 ∧
  is_Some (print_best_sum_of_squares_ranks nth_element_impl sort_impl
             [abcde; edcba; hello] [5; 1; 3] main_show_count).
Proof.
  split; [reflexivity|]. split; [by vm_compute|]. split; [reflexivity|].
  apply (print_best_in_bounds nth_element_impl sort_impl
           nth_element_impl_perm nth_element_impl_partitioned
           sort_impl_perm sort_impl_sorted
           [abcde; edcba; hello] [5; 1; 3] main_show_count);
    [reflexivity | by vm_compute].
Defined.

Lemma print_best_top_k_witness :
  length [5; 1; 3] = length [abcde; edcba; hello] ∧
  0 ≤ 2 ∧
  ∃ out, print_best_sum_of_squares_ranks nth_element_impl sort_impl
           [abcde; edcba; hello] [5; 1; 3] 2 = Some out ∧
         Z.of_nat (length out) = 2.
Proof.
  split; [reflexivity|]. split; [lia|].
  destruct (print_best_top_k nth_element_impl sort_impl
              nth_element_impl_perm nth_element_impl_partitioned
              sort_impl_perm sort_impl_sorted
              [abcde; edcba; hello] [5; 1; 3] 2 eq_refl ltac:(lia))
    as (best & out & Hout & _ & _ & Hlen & _).
  exists out. split; [exact Hout | exact Hlen].
Defined.

Example print_best_example :
  print_best_sum_of_squares_ranks nth_element_impl sort_impl
    [abcde; edcba; hello] [5; 1; 3] 2 = Some [(edcba, 1); (hello, 3)].
Proof. reflexivity. Qed.

(** * Further properties *)

(** ** [Marks] *)

Lemma slots_round_trip_all : forallb slots_round_trip (seqZ 0 1024) = true.
Proof. vm_compute. reflexivity. Qed.

Lemma marks_of_slots_slots (m : Z) :
  0 ≤ m < 1024 → marks_of_slots (Marks.slots m) = m.
Proof.
  intros Hm. pose proof slots_round_trip_all as Hall.
  rewrite forallb_forall in Hall. specialize (Hall m).
  rewrite <- list_elem_of_In, elem_of_seqZ in Hall.
  apply Z.eqb_eq, Hall. lia.
Qed.

Section compute_marks_more.
Variables (word target : Word).

(** The result uses the ten bits of the five groups only. *)
Lemma compute_marks_range : 0 ≤ compute_marks word target < 1024.
Proof.
  unfold compute_marks, pass3.
  apply (for_range_ind (λ _ st, 0 ≤ marks st < 1024)); [done| |].
  - rewrite (proj1 (pass2_spec word target)). apply pass1_spec.
  - intros i st Hi Hr. unfold pass3_body.
    destruct (negb (Bitset.test (used_word st) i)); [|done].
    apply Marks_set_range; lia.
Qed.

(** One scan over [j]: guess position [i] becomes used exactly when some
    target position carries its letter and is not used yet. *)
Lemma pass2_inner_used_word (i : Z) (st : Locals) :
  0 ≤ i →
  Bitset.test (used_word (for_range 5 (pass2_inner word target i) st)) i = true ↔
  Bitset.test (used_word st) i = true ∨
  ∃ j, 0 ≤ j < 5 ∧ at_ word i = at_ target j ∧ Bitset.test (used_target st) j = false.
Proof.
  intros Hi.
  pose proof (for_range_ind
    (λ n s,
       (Bitset.test (used_word s) i = true ↔
        Bitset.test (used_word st) i = true ∨
        ∃ j, 0 ≤ j < n ∧ at_ word i = at_ target j ∧
             Bitset.test (used_target st) j = false) ∧
       (∀ j, n ≤ j → Bitset.test (used_target s) j = Bitset.test (used_target st) j))
    5 (pass2_inner word target i) st) as Hind.
  apply Hind; [done| |].
  - split; [|done]. split; [by left|]. intros [?|(j & ? & _)]; [done|lia].
  - intros n s Hn [Hw Ht]. unfold pass2_inner.
    rewrite (Ht n) by lia.
    destruct (Ascii.eqb (at_ word i) (at_ target n)) eqn:Heq; simpl.
    + apply Ascii.eqb_eq in Heq.
      destruct (Bitset.test (used_target st) n) eqn:Hused; simpl.
      * split; [|intros j Hj; apply Ht; lia].
        rewrite Hw. split; (intros [?|(j & Hj & Hl & Hf)]; [by left|right]).
        -- exists j. split; [lia|done].
        -- exists j. split; [|done]. destruct (decide (j = n)) as [->|]; [congruence|lia].
      * split.
        -- rewrite Bitset_test_set, (bool_decide_eq_true_2 (i = i)), orb_true_r by lia.
           split; [|done]. intros _. right. exists n. split; [lia|done].
        -- intros j Hj. rewrite Bitset_test_set by lia.
           rewrite (bool_decide_eq_false_2 (j = n)), orb_false_r by lia. apply Ht. lia.
    + split; [|intros j Hj; apply Ht; lia].
      rewrite Hw. split; (intros [?|(j & Hj & Hl & Hf)]; [by left|right]).
      * exists j. split; [lia|done].
      * exists j. split; [|done]. destruct (decide (j = n)) as [->|]; [|lia].
        apply Ascii.eqb_neq in Heq. done.
Qed.

(** Iteration [k] of the second loop leaves the bit of every other guess
    position alone. *)
Lemma pass2_body_other (k i : Z) (st : Locals) :
  0 ≤ k → 0 ≤ i → i ≠ k →
  Bitset.test (used_word (pass2_body word target k st)) i = Bitset.test (used_word st) i.
Proof.
  intros Hk Hi Hne. unfold pass2_body.
  destruct (negb (Bitset.test (used_word st) k)); [|done].
  by apply (pass2_inner_spec word target k st Hk).
Qed.

(** The bit of guess position [i] is written by iteration [i] only. *)
Lemma used_word_before (i : Z) :
  0 ≤ i →
  Bitset.test (used_word (pass2_before word target i)) i =
  Bitset.test (used_word (pass1 word target)) i.
Proof.
  intros Hi.
  pose proof (for_range_ind
    (λ _ st, Bitset.test (used_word st) i = Bitset.test (used_word (pass1 word target)) i)
    i (pass2_body word target) (pass1 word target)) as Hind.
  apply Hind; [done|done|].
  intros k st Hk <-. apply pass2_body_other; lia.
Qed.

Lemma used_word_after (i : Z) :
  0 ≤ i < 5 →
  Bitset.test (used_word (pass2 word target)) i =
  Bitset.test (used_word (pass2_before word target (i + 1))) i.
Proof.
  intros Hi.
  pose proof (for_range_ind
    (λ k st, (k ≤ i + 1 → st = pass2_before word target k) ∧
             (i + 1 ≤ k → Bitset.test (used_word st) i =
                          Bitset.test (used_word (pass2_before word target (i + 1))) i))
    5 (pass2_body word target) (pass1 word target)) as Hind.
  apply Hind; [lia| | |lia].
  - split; [done|lia].
  - intros k st Hk [Heq Hsame]. split.
    + intros Hle. rewrite pass2_before_succ by lia. by rewrite Heq by lia.
    + intros Hle. destruct (decide (i = k)) as [->|Hne].
      * by rewrite Heq, <- pass2_before_succ by lia.
      * rewrite pass2_body_other by lia. apply Hsame. lia.
Qed.

(** A guess position whose letter differs from the target's at the same index
    is used after the second loop exactly when its iteration consumed a target
    position. *)
Lemma used_word_consumed (i : Z) :
  0 ≤ i < 5 →
  Ascii.eqb (at_ word i) (at_ target i) = false →
  Bitset.test (used_word (pass2 word target)) i = true ↔ consumed_by word target i ≠ [].
Proof.
  intros Hi Hneq.
  assert (Bitset.test (used_word (pass2_before word target i)) i = false) as Hbefore.
  { rewrite used_word_before by lia.
    destruct (pass1_spec word target) as [_ H1]. destruct (H1 i Hi) as [_ ->]. done. }
  rewrite used_word_after, pass2_before_succ, consumed_by_spec by lia.
  unfold pass2_body. rewrite Hbefore. simpl.
  rewrite pass2_inner_used_word by lia. rewrite Hbefore.
  split.
  - intros [?|(j & Hj & Hl & Hf)]; [done|]. intros Hnil.
    assert (j ∈ filter (λ j, at_ word i = at_ target j ∧
              Bitset.test (used_target (pass2_before word target i)) j = false) (seqZ 0 5)) as Hin.
    { apply list_elem_of_filter. split; [done|]. apply elem_of_seqZ. lia. }
    rewrite Hnil in Hin. by apply elem_of_nil in Hin.
  - intros Hne. right.
    destruct (filter _ _) as [|j l] eqn:Hf; [done|].
    assert (j ∈ j :: l) as Hin by left. rewrite <- Hf in Hin.
    apply list_elem_of_filter in Hin as [[Hl Hu] Hj]. apply elem_of_seqZ in Hj.
    exists j. split; [lia|done].
Qed.

(** The slot of guess position [i] in terms of what its iteration of the
    second loop consumed. *)
Lemma compute_marks_slot_consumed (i : Z) :
  0 ≤ i < 5 →
  Marks.slot (compute_marks word target) i =
    if decide (at_ word i = at_ target i) then Correct
    else if decide (consumed_by word target i = []) then Absent
    else Unset.
Proof.
  intros Hi. rewrite compute_marks_slot by done.
  destruct (Ascii.eqb (at_ word i) (at_ target i)) eqn:Heq.
  - apply Ascii.eqb_eq in Heq. by rewrite decide_True.
  - pose proof (used_word_consumed i Hi Heq) as Hused.
    apply Ascii.eqb_neq in Heq. rewrite decide_False by done.
    destruct (decide (consumed_by word target i = [])) as [Hnil|Hcons].
    + destruct (Bitset.test (used_word (pass2 word target)) i); [|done].
      by destruct (proj1 Hused eq_refl).
    + by rewrite (proj2 Hused Hcons).
Qed.
End compute_marks_more.

(** A function over the five indices is determined by its values there. *)
Lemma fmap_indices_ext {A} (f g : Z → A) :
  (∀ i, 0 ≤ i < 5 → f i = g i) → f <$> seqZ 0 5 = g <$> seqZ 0 5.
Proof.
  intros Hext. apply Forall_fmap_ext, Forall_seqZ. intros i Hi. apply Hext. lia.
Qed.

(** ** [Word::compute_marks] *)

(** X1: for every guess and target, slot [i] of the result is [Correct] when
    the two words carry the same letter at [i]; otherwise it is [Absent] when
    iteration [i] of the second loop consumed no target position, and [Unset]
    when it consumed one. *)
Theorem compute_marks_slots (word target : Word) :
  Marks.slots (compute_marks word target) =
  (λ i, if decide (at_ word i = at_ target i) then Correct
        else if decide (consumed_by word target i = []) then Absent
        else Unset) <$> seqZ 0 5.
Proof.
  unfold Marks.slots. apply fmap_indices_ext. intros i Hi.
  by apply compute_marks_slot_consumed.
Qed.

(** X2: the result is all [Correct] exactly when guess and target are the
    same word. *)
Theorem compute_marks_all_correct_iff (word target : Word) :
  Marks.slots (compute_marks word target) = replicate 5 Correct ↔ word = target.
Proof.
  split.
  - intros Hall.
    assert (∀ i, 0 ≤ i < 5 → at_ word i = at_ target i) as Hsame.
    { intros i Hi.
      assert (Marks.slot (compute_marks word target) i = Correct) as Hslot.
      { assert (Marks.slots (compute_marks word target) !! Z.to_nat i = Some Correct) as Hl.
        { rewrite Hall. apply lookup_replicate_2. lia. }
        unfold Marks.slots in Hl. rewrite list_lookup_fmap, lookup_seqZ_lt in Hl by lia.
        simpl in Hl. rewrite Z2Nat.id in Hl by lia. by injection Hl. }
      rewrite compute_marks_slot in Hslot by done.
      destruct (Ascii.eqb (at_ word i) (at_ target i)) eqn:Heq;
        [by apply Ascii.eqb_eq|].
      by destruct (Bitset.test _ _). }
    destruct word as [a b c d e], target as [a' b' c' d' e'].
    pose proof (Hsame 0 ltac:(lia)). pose proof (Hsame 1 ltac:(lia)).
    pose proof (Hsame 2 ltac:(lia)). pose proof (Hsame 3 ltac:(lia)).
    pose proof (Hsame 4 ltac:(lia)). simpl in *. congruence.
  - intros <-. unfold compute_marks, pass3, pass2. by rewrite pass1_same.
Qed.

(** X3: a guess letter that occurs nowhere in the target gets [Absent]. *)
Theorem letter_not_in_target_absent (word target : Word) (i : Z) :
  0 ≤ i < 5 →
  at_ word i ∉ to_string_view target →
  Marks.slot (compute_marks word target) i = Absent.
Proof.
  intros Hi Hnot.
  assert (∀ j, 0 ≤ j < 5 → at_ word i ≠ at_ target j) as Hne.
  { intros j Hj Heq. apply Hnot. unfold to_string_view.
    apply list_elem_of_fmap. exists j. split; [done|]. apply elem_of_seqZ. lia. }
  rewrite compute_marks_slot_consumed by done.
  rewrite decide_False by (apply Hne; lia).
  rewrite decide_True; [done|].
  rewrite consumed_by_spec by done.
  destruct (Bitset.test _ _); [done|].
  apply filter_none. intros j Hj [Heq _]. apply elem_of_seqZ in Hj.
  apply (Hne j); [lia|done].
Qed.

Lemma letter_not_in_target_absent_witness :
  0 ≤ 2 < 5 ∧ (at_ aabcd 2 ∉ to_string_view efgaa) ∧
  Marks.slot (compute_marks aabcd efgaa) 2 = Absent.
Proof.
  assert (at_ aabcd 2 ∉ to_string_view efgaa) as Hnot.
  { apply (bool_decide_unpack _). vm_compute. exact I. }
  split; [lia|]. split; [exact Hnot|].
  apply (letter_not_in_target_absent aabcd efgaa 2); [lia | exact Hnot].
Defined.

(** X4: a slot the second loop leaves [Unset] belongs to a guess letter that
    differs from the target's at that index and occurs at another index of the
    target. *)
Theorem unset_letter_elsewhere (word target : Word) (i : Z) :
  0 ≤ i < 5 →
  Marks.slot (compute_marks word target) i = Unset →
  at_ word i ≠ at_ target i ∧
  ∃ j, 0 ≤ j < 5 ∧ j ≠ i ∧ at_ word i = at_ target j.
Proof.
  intros Hi. rewrite compute_marks_slot_consumed by done.
  destruct (decide (at_ word i = at_ target i)) as [|Hne]; [done|].
  destruct (decide (consumed_by word target i = [])) as [|Hcons]; [done|].
  intros _. split; [done|].
  rewrite consumed_by_spec in Hcons by done.
  destruct (Bitset.test _ _); [done|].
  destruct (filter _ _) as [|j l] eqn:Hf; [done|].
  assert (j ∈ j :: l) as Hin by left. rewrite <- Hf in Hin.
  apply list_elem_of_filter in Hin as [[Heq _] Hj]. apply elem_of_seqZ in Hj.
  exists j. split; [lia|]. split; [|done]. intros ->. done.
Qed.

Lemma unset_letter_elsewhere_witness :
  0 ≤ 0 < 5 ∧ Marks.slot (compute_marks abcde edcba) 0 = Unset ∧
  at_ abcde 0 ≠ at_ edcba 0 ∧
  ∃ j, 0 ≤ j < 5 ∧ j ≠ 0 ∧ at_ abcde 0 = at_ edcba j.
Proof.
  split; [lia|]. split; [reflexivity|].
  apply (unset_letter_elsewhere abcde edcba 0); [lia | reflexivity].
Defined.

(** X5: no slot of a result is ever [WrongPosition]: [set_wrong_spot] is not
    called by [compute_marks]. *)
Theorem compute_marks_no_wrong_position (word target : Word) :
  Forall (λ m, m ≠ WrongPosition) (Marks.slots (compute_marks word target)).
Proof.
  unfold Marks.slots. apply Forall_fmap, Forall_seqZ. intros i Hi. simpl.
  apply compute_marks_never_wrong_position. lia.
Qed.

(** X6: iteration [i] of the second loop, entered with guess position [i]
    unused, consumes every target position that carries the letter and is not
    consumed yet; entered with it used, it consumes none. *)
Theorem consumed_by_every_match (word target : Word) :
  consumed_by word target <$> seqZ 0 5 =
  (λ i, if Bitset.test (used_word (pass2_before word target i)) i then []
        else filter (λ j, at_ word i = at_ target j ∧
                          Bitset.test (used_target (pass2_before word target i)) j = false)
                    (seqZ 0 5)) <$> seqZ 0 5.
Proof. apply fmap_indices_ext. intros i Hi. by apply consumed_by_spec. Qed.


(** ** [Marks]: comparison *)

(** X8: two results of [compute_marks] compare equal with [operator==]
    exactly when they agree in all five slots, and [operator<=>] then gives
    [Eq]. *)
Theorem Marks_eqb_slots (word target word' target' : Word) :
  (Marks_eqb (compute_marks word target) (compute_marks word' target') = true ↔
   Marks.slots (compute_marks word target) = Marks.slots (compute_marks word' target')) ∧
  (Marks_compare (compute_marks word target) (compute_marks word' target') = Eq ↔
   Marks.slots (compute_marks word target) = Marks.slots (compute_marks word' target')).
Proof.
  assert (compute_marks word target = compute_marks word' target' ↔
          Marks.slots (compute_marks word target) =
          Marks.slots (compute_marks word' target')) as Hiff.
  { split; [by intros ->|]. intros Hslots.
    rewrite <- (marks_of_slots_slots (compute_marks word target))
      by apply compute_marks_range.
    rewrite <- (marks_of_slots_slots (compute_marks word' target'))
      by apply compute_marks_range.
    by rewrite Hslots. }
  unfold Marks_eqb, Marks_compare. rewrite Z.eqb_eq, Z.compare_eq_iff. done.
Qed.

(** X9: a result of [compute_marks] uses the ten bits of the five groups
    only, and packing its five slots gives the bitmask back. *)
Theorem compute_marks_ten_bits (word target : Word) :
  0 ≤ compute_marks word target < 2 ^ 10 ∧
  marks_of_slots (Marks.slots (compute_marks word target)) = compute_marks word target.
Proof.
  pose proof (compute_marks_range word target) as Hr.
  split; [done|]. by apply marks_of_slots_slots.
Qed.

(** ** [Marks::set] on every [uint32_t] *)

Lemma testbit_above (x b k : Z) : 0 ≤ x < 2 ^ b → 0 ≤ b ≤ k → Z.testbit x k = false.
Proof.
  intros Hx Hk. destruct (decide (x = 0)) as [->|Hne]; [apply Z.testbit_0_l|].
  apply Z.bits_above_log2; [lia|].
  assert (Z.log2 x < b); [|lia]. apply Z.log2_lt_pow2; lia.
Qed.

Lemma wrap32_testbit (x n : Z) :
  0 ≤ n → Z.testbit (wrap32 x) n = bool_decide (n < 32) && Z.testbit x n.
Proof.
  intros Hn. unfold wrap32. destruct (decide (n < 32)).
  - rewrite bool_decide_eq_true_2 by done. by apply Z.mod_pow2_bits_low.
  - rewrite bool_decide_eq_false_2 by done. apply Z.mod_pow2_bits_high. lia.
Qed.

Lemma shl32_testbit (x s n : Z) :
  0 ≤ n → Z.testbit (shl32 x s) n = bool_decide (n < 32) && Z.testbit x (n - s).
Proof.
  intros Hn. unfold shl32. rewrite wrap32_testbit by done.
  by rewrite Z.shiftl_spec by done.
Qed.

Lemma not32_testbit (x n : Z) :
  0 ≤ n → Z.testbit (not32 x) n = bool_decide (n < 32) && negb (Z.testbit x n).
Proof.
  intros Hn. unfold not32. rewrite Z.lxor_spec, wrap32_testbit by done.
  change (2 ^ 32 - 1) with (Z.ones 32).
  destruct (decide (n < 32)).
  - rewrite bool_decide_eq_true_2, Z.ones_spec_low by lia.
    by destruct (Z.testbit x n).
  - rewrite bool_decide_eq_false_2, Z.ones_spec_high by lia. done.
Qed.

(** Bit [n] of the bitmask after [set(i, mask)]: a bit of [mask] inside group
    [i], the old bit outside. *)
Lemma Marks_set_testbit (m i mask n : Z) :
  0 ≤ m < 2 ^ 32 → 0 ≤ i < 16 → 0 ≤ mask < 4 → 0 ≤ n →
  Z.testbit (Marks.set m i mask) n =
    if decide (2 * i ≤ n < 2 * i + 2) then Z.testbit mask (n - 2 * i) else Z.testbit m n.
Proof.
  intros Hm Hi Hmask Hn. unfold Marks.set.
  rewrite Z.lxor_spec, Z.land_spec, not32_testbit, !shl32_testbit by done.
  destruct (decide (n < 32)) as [Hlt|Hge].
  - rewrite !(bool_decide_eq_true_2 (n < 32)) by done. simpl.
    destruct (decide (2 * i ≤ n < 2 * i + 2)) as [Hin|Hout].
    + assert (Z.testbit 3 (n - 2 * i) = true) as ->.
      { assert (n - 2 * i = 0 ∨ n - 2 * i = 1) as [-> | ->] by lia; done. }
      simpl. by rewrite andb_false_r.
    + assert (Z.testbit 3 (n - 2 * i) = false) as ->.
      { destruct (decide (n < 2 * i)); [apply Z.testbit_neg_r; lia|].
        apply (testbit_above 3 2); lia. }
      assert (Z.testbit mask (n - 2 * i) = false) as ->.
      { destruct (decide (n < 2 * i)); [apply Z.testbit_neg_r; lia|].
        apply (testbit_above mask 2); lia. }
      simpl. by rewrite andb_true_r, xorb_false_r.
  - rewrite !(bool_decide_eq_false_2 (n < 32)) by done. simpl.
    rewrite decide_False by lia.
    rewrite (testbit_above m 32) by lia. done.
Qed.

Lemma Marks_bits_testbit (m j n : Z) :
  0 ≤ j → 0 ≤ n →
  Z.testbit (Marks.bits m j) n = Z.testbit m (n + 2 * j) && bool_decide (n < 2).
Proof.
  intros Hj Hn. unfold Marks.bits.
  rewrite Z.land_spec, Z.shiftr_spec by done. f_equal.
  destruct (decide (n < 2)).
  - rewrite bool_decide_eq_true_2 by done.
    assert (n = 0 ∨ n = 1) as [-> | ->] by lia; done.
  - rewrite bool_decide_eq_false_2 by done. apply (testbit_above 3 2); lia.
Qed.

Lemma Marks_set_bits_uint32 (m i mask j : Z) :
  0 ≤ m < 2 ^ 32 → 0 ≤ i < 16 → 0 ≤ mask < 4 → 0 ≤ j < 16 →
  0 ≤ Marks.set m i mask < 2 ^ 32 ∧
  Marks.bits (Marks.set m i mask) j = if decide (j = i) then mask else Marks.bits m j.
Proof.
  intros Hm Hi Hmask Hj. split.
  - assert (Marks.set m i mask = wrap32 (Marks.set m i mask)) as ->.
    { apply Z.bits_inj'. intros n Hn. rewrite wrap32_testbit by done.
      destruct (decide (n < 32)).
      - by rewrite bool_decide_eq_true_2.
      - rewrite bool_decide_eq_false_2 by done. simpl.
        rewrite Marks_set_testbit by done. rewrite decide_False by lia.
        apply (testbit_above m 32); lia. }
    unfold wrap32. apply Z.mod_pos_bound. lia.
  - apply Z.bits_inj'. intros n Hn.
    rewrite Marks_bits_testbit, Marks_set_testbit by lia.
    destruct (decide (j = i)) as [->|Hne].
    + destruct (decide (n < 2)).
      * rewrite decide_True, bool_decide_eq_true_2, andb_true_r by lia.
        f_equal. lia.
      * rewrite bool_decide_eq_false_2, andb_false_r by done.
        symmetry. apply (testbit_above mask 2); lia.
    + rewrite Marks_bits_testbit by lia.
      destruct (decide (n < 2)).
      * by rewrite decide_False by lia.
      * by rewrite bool_decide_eq_false_2, !andb_false_r by done.
Qed.

(** X10: on every [uint32_t] bitmask and for each of its sixteen two-bit
    groups, [set(i, mask)] makes group [i] read [mask], leaves every other
    group as it was, and stays a [uint32_t]. *)
Theorem Marks_set_writes_one_group (m i mask j : Z) :
  0 ≤ m < 2 ^ 32 → 0 ≤ i < 16 → 0 ≤ mask < 4 → 0 ≤ j < 16 →
  0 ≤ Marks.set m i mask < 2 ^ 32 ∧
  Marks.bits (Marks.set m i mask) j = if decide (j = i) then mask else Marks.bits m j.
Proof. apply Marks_set_bits_uint32. Qed.

Lemma Marks_set_writes_one_group_witness :
  0 ≤ 4000000000 < 2 ^ 32 ∧ 0 ≤ 15 < 16 ∧ 0 ≤ 2 < 4 ∧ 0 ≤ 14 < 16 ∧
  0 ≤ Marks.set 4000000000 15 2 < 2 ^ 32 ∧
  Marks.bits (Marks.set 4000000000 15 2) 14 = Marks.bits 4000000000 14.
Proof.
  repeat (split; [lia|]).
  apply (Marks_set_writes_one_group 4000000000 15 2 14); lia.
Defined.

(** X11: writing a group twice keeps the last value only, and writes to
    different groups can be swapped. *)
Theorem Marks_set_set (m i i' mask mask' : Z) :
  0 ≤ m < 2 ^ 32 → 0 ≤ i < 16 → 0 ≤ i' < 16 → 0 ≤ mask < 4 → 0 ≤ mask' < 4 →
  Marks.set (Marks.set m i mask) i mask' = Marks.set m i mask' ∧
  (i ≠ i' →
   Marks.set (Marks.set m i mask) i' mask' = Marks.set (Marks.set m i' mask') i mask).
Proof.
  intros Hm Hi Hi' Hmask Hmask'.
  pose proof (proj1 (Marks_set_bits_uint32 m i mask 0 Hm Hi Hmask ltac:(lia))) as Hr.
  pose proof (proj1 (Marks_set_bits_uint32 m i' mask' 0 Hm Hi' Hmask' ltac:(lia))) as Hr'.
  split; [|intros Hne]; apply Z.bits_inj'; intros n Hn;
    rewrite !Marks_set_testbit by done;
    repeat destruct (decide _); try done; lia.
Qed.

Lemma Marks_set_set_witness :
  0 ≤ 0 < 2 ^ 32 ∧ 0 ≤ 0 < 16 ∧ 0 ≤ 4 < 16 ∧ 0 ≤ 3 < 4 ∧ 0 ≤ 1 < 4 ∧
  Marks.set (Marks.set 0 0 3) 0 1 = Marks.set 0 0 1 ∧
  Marks.set (Marks.set 0 0 3) 4 1 = Marks.set (Marks.set 0 4 1) 0 3.
Proof.
  repeat (split; [lia|]).
  destruct (Marks_set_set 0 0 4 3 1) as [Hsame Hswap]; [lia..|].
  split; [exact Hsame | apply Hswap; lia].
Defined.

(** ** Loops, two at a time *)

(** A loop over [n1 + n2] indices is a loop over the first [n1] followed by a
    loop over the next [n2]. *)
Lemma for_range_add {St : Type} (n1 n2 : Z) (body : Z → St → St) (s : St) :
  0 ≤ n1 → 0 ≤ n2 →
  for_range (n1 + n2) body s = for_range n2 (λ i, body (n1 + i)) (for_range n1 body s).
Proof.
  intros H1 H2.
  pose proof (for_range_ind
    (λ k st, st = for_range (n1 + k) body s)
    n2 (λ i, body (n1 + i)) (for_range n1 body s)) as Hind.
  symmetry. apply Hind; [done|by rewrite Z.add_0_r|].
  intros i st Hi ->. rewrite Z.add_assoc. by rewrite for_range_succ by lia.
Qed.

(** Two loops whose bodies keep a relation between their states end in
    related states. *)
Lemma for_range_rel {St St' : Type} (R : Z → St → St' → Prop) (n : Z)
    (body : Z → St → St) (body' : Z → St' → St') (s : St) (s' : St') :
  0 ≤ n →
  R 0 s s' →
  (∀ i st st', 0 ≤ i < n → R i st st' → R (i + 1) (body i st) (body' i st')) →
  R n (for_range n body s) (for_range n body' s').
Proof.
  intros Hn H0 Hstep.
  pose proof (for_range_ind
    (λ k st, R k st (for_range k body' s')) n body s) as Hind.
  apply Hind; [done|done|].
  intros i st Hi HR. rewrite for_range_succ by lia. by apply Hstep.
Qed.

(** ** [parse_words] *)

Lemma parse_words_state (text : list ascii) : parse_words text = snd (parse_state text).
Proof. done. Qed.

Lemma Word_of_span_Some (data : list ascii) (w : Word) :
  Word_of_span data = Some w ↔ data = to_string_view w.
Proof.
  destruct w as [a b c d e]. change (to_string_view (MkWord a b c d e)) with [a; b; c; d; e].
  split.
  - destruct data as [|a' [|b' [|c' [|d' [|e' [|? ?]]]]]]; try done.
    simpl. by intros [= -> -> -> -> ->].
  - by intros ->.
Qed.

(** While the loop runs, [last_quote] is [none] or the index of a quote
    already passed, and every word collected so far stands between two quotes
    of the text. *)
Lemma parse_state_inv (text : list ascii) :
  Z.of_nat (length text) ≤ SIZE_MAX →
  let '(last_quote, words) := parse_state text in
  (last_quote = none ∨
   0 ≤ last_quote < Z.of_nat (length text) ∧ text !! Z.to_nat last_quote = Some quote) ∧
  ∀ w, w ∈ words → ∃ p, quoted_at text p w.
Proof.
  intros Hsize. unfold parse_state.
  pose proof (for_range_ind
    (λ i st,
       (st.1 = none ∨ 0 ≤ st.1 < i ∧ text !! Z.to_nat st.1 = Some quote) ∧
       ∀ w, w ∈ st.2 → ∃ p, quoted_at text p w)
    (Z.of_nat (length text)) (parse_body text) (none, [])) as Hind.
  destruct (for_range _ _ _) as [last_quote words]. simpl in Hind.
  apply Hind; [lia| |].
  - split; [by left|]. intros w Hw. by apply elem_of_nil in Hw.
  - intros i [lq ws] Hi [Hlq Hws]. simpl in Hlq, Hws. unfold parse_body.
    destruct (text !! Z.to_nat i) as [c|] eqn:Hc; [|split; [|done]; simpl; intuition lia].
    destruct (Ascii.eqb c quote) eqn:Hq; [|split; [|done]; simpl; intuition lia].
    apply Ascii.eqb_eq in Hq as ->.
    destruct (lq =? none) eqn:Hnone.
    { split; [|done]. simpl. right. split; [lia|done]. }
    apply Z.eqb_neq in Hnone. destruct Hlq as [?|[Hlq Hquote]]; [done|].
    destruct (wrap_size (i - lq) =? 6) eqn:Hdist; [|split; [|done]; simpl; right; split; [lia|done]].
    apply Z.eqb_eq in Hdist. unfold wrap_size, SIZE_MAX in *.
    rewrite Z.mod_small in Hdist by lia.
    destruct (Word_of_span _) as [w|] eqn:Hw;
      [|split; [|done]; simpl; right; split; [lia|done]].
    split; [by left|]. simpl. intros w' Hw'.
    apply elem_of_app in Hw' as [Hw'|Hw']; [by apply Hws|].
    apply list_elem_of_singleton in Hw' as ->.
    exists (Z.to_nat lq). unfold quoted_at. split; [done|]. split.
    + replace (Z.to_nat lq + 6)%nat with (Z.to_nat i) by lia. done.
    + apply Word_of_span_Some in Hw.
      replace (Z.to_nat lq + 1)%nat with (Z.to_nat (lq + 1)) by lia. done.
Qed.

(** X12: every word [parse_words] returns stands in the text between a quote
    and the quote six characters later. *)
Theorem parse_words_sound (text : list ascii) (w : Word) :
  Z.of_nat (length text) ≤ SIZE_MAX →
  w ∈ parse_words text → ∃ p, quoted_at text p w.
Proof.
  intros Hsize Hw. pose proof (parse_state_inv text Hsize) as Hinv.
  rewrite parse_words_state in Hw.
  destruct (parse_state text) as [lq ws]. by apply Hinv.
Qed.

Lemma parse_words_sound_witness :
  Z.of_nat (length (list_ascii_of_string "x" ++ quoted "hello")) ≤ SIZE_MAX ∧
  hello ∈ parse_words (list_ascii_of_string "x" ++ quoted "hello") ∧
  ∃ p, quoted_at (list_ascii_of_string "x" ++ quoted "hello") p hello.
Proof.
  assert (hello ∈ parse_words (list_ascii_of_string "x" ++ quoted "hello")) as Hin
    by (vm_compute; left).
  split; [vm_compute; discriminate|]. split; [exact Hin|].
  apply (parse_words_sound _ hello); [vm_compute; discriminate | exact Hin].
Defined.

(** X13: a text without a double quote yields no word; in particular the
    empty text, which is what a file that cannot be read gives. *)
Theorem parse_words_no_quote (text : list ascii) :
  quote ∉ text → parse_words text = [].
Proof.
  intros Hnot. rewrite parse_words_state. unfold parse_state.
  pose proof (for_range_ind (λ _ st, st = (none, @nil Word))
    (Z.of_nat (length text)) (parse_body text) (none, [])) as Hind.
  rewrite Hind; [done|lia|done|].
  intros i st Hi ->. unfold parse_body.
  destruct (text !! Z.to_nat i) as [c|] eqn:Hc; [|done].
  destruct (Ascii.eqb c quote) eqn:Hq; [|done].
  apply Ascii.eqb_eq in Hq as ->. exfalso. apply Hnot.
  apply list_elem_of_lookup. eauto.
Qed.

Lemma parse_words_no_quote_witness :
  (quote ∉ list_ascii_of_string "hello world") ∧
  parse_words (list_ascii_of_string "hello world") = [].
Proof.
  assert (quote ∉ list_ascii_of_string "hello world") as Hnot.
  { apply (bool_decide_unpack _). vm_compute. exact I. }
  split; [exact Hnot|]. by apply parse_words_no_quote.
Defined.

(** The loop over a prefix does not read beyond it. *)
Lemma parse_prefix (a b : list ascii) :
  Z.of_nat (length (a ++ b)) ≤ SIZE_MAX →
  for_range (Z.of_nat (length a)) (parse_body (a ++ b)) (none, []) = parse_state a.
Proof.
  intros Hsize. rewrite length_app in Hsize. unfold parse_state.
  pose proof (for_range_rel
    (λ i st st', st = st' ∧ (st.1 = none ∨ 0 ≤ st.1 < i))
    (Z.of_nat (length a)) (parse_body (a ++ b)) (parse_body a) (none, []) (none, [])) as Hrel.
  apply Hrel; [lia|split; [done|by left]|].
  intros i [lq ws] st' Hi [<- Hlq]. simpl in Hlq. unfold parse_body.
  rewrite lookup_app_l by lia.
  destruct (a !! Z.to_nat i) as [c|] eqn:Hc; [|split; [done|]; simpl; intuition lia].
  destruct (Ascii.eqb c quote) eqn:Hq; [|split; [done|]; simpl; intuition lia].
  destruct (lq =? none) eqn:Hnone; [split; [done|]; simpl; right; lia|].
  apply Z.eqb_neq in Hnone. destruct Hlq as [?|Hlq]; [done|].
  destruct (wrap_size (i - lq) =? 6) eqn:Hdist; [|split; [done|]; simpl; right; lia].
  apply Z.eqb_eq in Hdist. unfold wrap_size, SIZE_MAX in *.
  rewrite Z.mod_small in Hdist by lia.
  assert (take 5 (drop (Z.to_nat (lq + 1)) (a ++ b)) = take 5 (drop (Z.to_nat (lq + 1)) a)) as ->.
  { rewrite drop_app_le by lia. apply take_app_le. rewrite length_drop. lia. }
  destruct (Word_of_span _); (split; [done|]); simpl; [by left|right; lia].
Qed.

(** The loop over a suffix, entered with no quote open, runs as on the suffix
    alone. *)
Lemma parse_suffix (a b : list ascii) (words : list Word) :
  Z.of_nat (length (a ++ b)) ≤ SIZE_MAX →
  snd (for_range (Z.of_nat (length b))
         (λ i, parse_body (a ++ b) (Z.of_nat (length a) + i)) (none, words)) =
  words ++ parse_words b.
Proof.
  intros Hsize. rewrite length_app in Hsize. rewrite parse_words_state. unfold parse_state.
  pose proof (for_range_rel
    (λ i st st', st.2 = words ++ st'.2 ∧
                 ((st.1 = none ∧ st'.1 = none) ∨
                  (0 ≤ st'.1 < i ∧ st.1 = Z.of_nat (length a) + st'.1)))
    (Z.of_nat (length b))
    (λ i, parse_body (a ++ b) (Z.of_nat (length a) + i)) (parse_body b)
    (none, words) (none, [])) as Hrel.
  apply Hrel; [lia|split; [by rewrite app_nil_r|by left]|].
  intros i [lq ws] [lq' ws'] Hi [Hws Hlq]. simpl in Hws, Hlq. subst ws.
  unfold parse_body.
  replace (Z.to_nat (Z.of_nat (length a) + i)) with (length a + Z.to_nat i)%nat by lia.
  rewrite lookup_app_r, Nat.add_comm, Nat.add_sub by lia.
  destruct (b !! Z.to_nat i) as [c|] eqn:Hc; [|simpl; split; [done|intuition lia]].
  destruct (Ascii.eqb c quote) eqn:Hq; [|simpl; split; [done|intuition lia]].
  destruct Hlq as [[-> ->]|[Hlq' ->]].
  - rewrite Z.eqb_refl. simpl. split; [done|]. right. lia.
  - assert ((Z.of_nat (length a) + lq' =? none) = false) as ->
      by (apply Z.eqb_neq; unfold none, SIZE_MAX in *; lia).
    assert ((lq' =? none) = false) as ->
      by (apply Z.eqb_neq; unfold none, SIZE_MAX in *; lia).
    replace (Z.of_nat (length a) + i - (Z.of_nat (length a) + lq')) with (i - lq') by lia.
    destruct (wrap_size (i - lq') =? 6) eqn:Hdist; [|simpl; split; [done|right; lia]].
    assert (take 5 (drop (Z.to_nat (Z.of_nat (length a) + lq' + 1)) (a ++ b)) =
            take 5 (drop (Z.to_nat (lq' + 1)) b)) as ->.
    { replace (Z.to_nat (Z.of_nat (length a) + lq' + 1))
        with (length a + Z.to_nat (lq' + 1))%nat by lia.
      by rewrite drop_app_add. }
    destruct (Word_of_span _); simpl.
    + split; [by rewrite app_assoc|by left].
    + split; [done|right; lia].
Qed.

Lemma parse_words_app_closed (a b : list ascii) :
  Z.of_nat (length (a ++ b)) ≤ SIZE_MAX →
  fst (parse_state a) = none →
  parse_words (a ++ b) = parse_words a ++ parse_words b.
Proof.
  intros Hsize Hclosed. rewrite (parse_words_state (a ++ b)). unfold parse_state.
  rewrite length_app, Nat2Z.inj_add, for_range_add by lia.
  rewrite parse_prefix by done.
  rewrite (parse_words_state a).
  destruct (parse_state a) as [lq ws]. simpl in *. subst lq.
  by apply parse_suffix.
Qed.

(** X14: when the loop has no quote open at the end of a text, parsing that
    text followed by another gives the words of the first followed by the
    words of the second. *)
Theorem parse_words_app (a b : list ascii) :
  Z.of_nat (length (a ++ b)) ≤ SIZE_MAX →
  fst (parse_state a) = none →
  parse_words (a ++ b) = parse_words a ++ parse_words b.
Proof. apply parse_words_app_closed. Qed.

Lemma parse_words_app_witness :
  Z.of_nat (length (quoted "hello" ++ quoted "abcde")) ≤ SIZE_MAX ∧
  fst (parse_state (quoted "hello")) = none ∧
  parse_words (quoted "hello" ++ quoted "abcde") = [hello; abcde].
Proof.
  split; [vm_compute; discriminate|]. split; [reflexivity|].
  rewrite (parse_words_app (quoted "hello") (quoted "abcde"));
    [reflexivity | vm_compute; discriminate | reflexivity].
Defined.

(** A quote followed by six or more characters other than a quote: the loop
    keeps that quote as [last_quote] for good and collects nothing. *)
Lemma parse_overlong (s rest : list ascii) :
  Z.of_nat (length (quote :: s ++ rest)) ≤ SIZE_MAX →
  quote ∉ s → (6 ≤ length s)%nat →
  parse_words (quote :: s ++ rest) = [].
Proof.
  intros Hsize Hnot Hlong. rewrite parse_words_state. unfold parse_state.
  remember (quote :: s ++ rest) as text eqn:Htext.
  pose proof (for_range_ind
    (λ i st, st.2 = @nil Word ∧ (i = 0 → st.1 = none) ∧ (1 ≤ i → st.1 = 0))
    (Z.of_nat (length text)) (parse_body text) (none, [])) as Hind.
  destruct (for_range _ _ _) as [lq ws]. simpl in Hind. simpl.
  apply Hind; [lia|split; [done|split; [done|lia]]|].
  intros i [lq' ws'] Hi (Hws & H0 & H1). simpl in Hws, H0, H1. subst ws'.
  unfold parse_body.
  destruct (text !! Z.to_nat i) as [c|] eqn:Hc; [|apply lookup_ge_None in Hc; lia].
  destruct (decide (i = 0)) as [->|Hi0].
  - rewrite (H0 eq_refl). rewrite Htext in Hc. simpl in Hc. injection Hc as <-.
    rewrite Ascii.eqb_refl, Z.eqb_refl. simpl. split; [done|split; [lia|done]].
  - rewrite (H1 ltac:(lia)).
    destruct (Ascii.eqb c quote) eqn:Hq; [|simpl; split; [done|split; [lia|done]]].
    apply Ascii.eqb_eq in Hq as ->.
    change (0 =? none) with false. cbn match.
    assert ((wrap_size (i - 0) =? 6) = false) as ->.
    { apply Z.eqb_neq. unfold wrap_size, SIZE_MAX in *.
      rewrite Z.mod_small by lia. intros Hi6.
      assert (i = 6) as -> by lia. apply Hnot.
      rewrite Htext in Hc. change (Z.to_nat 6) with 6%nat in Hc. simpl in Hc.
      rewrite lookup_app_l in Hc by lia.
      apply list_elem_of_lookup. eauto. }
    simpl. split; [done|split; [lia|done]].
Qed.

(** X15: once a quote is followed by six or more characters other than a
    quote, no word that comes after it is returned: the result is that of the
    text before that quote.  The branch for a bad word leaves [last_quote]
    where it is. *)
Theorem parse_words_overlong_span (pre s rest : list ascii) :
  Z.of_nat (length (pre ++ quote :: s ++ rest)) ≤ SIZE_MAX →
  fst (parse_state pre) = none →
  quote ∉ s → (6 ≤ length s)%nat →
  parse_words (pre ++ quote :: s ++ rest) = parse_words pre.
Proof.
  intros Hsize Hclosed Hnot Hlong.
  rewrite parse_words_app_closed by done.
  rewrite parse_overlong; [by rewrite app_nil_r| |done|done].
  rewrite length_app in Hsize. lia.
Qed.

Lemma parse_words_overlong_span_witness :
  Z.of_nat (length (quoted "hello" ++ quote :: list_ascii_of_string "abcdef" ++ quoted "abcde"))
    ≤ SIZE_MAX ∧
  fst (parse_state (quoted "hello")) = none ∧
  (quote ∉ list_ascii_of_string "abcdef") ∧
  (6 ≤ length (list_ascii_of_string "abcdef"))%nat ∧
  parse_words (quoted "hello" ++ quote :: list_ascii_of_string "abcdef" ++ quoted "abcde")
    = [hello].
Proof.
  assert (quote ∉ list_ascii_of_string "abcdef") as Hnot.
  { apply (bool_decide_unpack _). vm_compute. exact I. }
  split; [vm_compute; discriminate|]. split; [reflexivity|].
  split; [exact Hnot|]. split; [vm_compute; lia|].
  rewrite (parse_words_overlong_span (quoted "hello") (list_ascii_of_string "abcdef")
             (quoted "abcde"));
    [reflexivity | vm_compute; discriminate | reflexivity | exact Hnot | vm_compute; lia].
Defined.

(** X16: on a text all of whose quoted spans have length 5, [parse_words]
    returns exactly those spans, in order of appearance. *)
Theorem parse_words_all_spans (text : list ascii) :
  Z.of_nat (length text) ≤ SIZE_MAX →
  Forall (λ span, length span = 5%nat) (quoted_spans text) →
  parse_words text = omap Word_of_span (quoted_spans text).
Proof. apply parse_words_well_formed. Qed.

Lemma parse_words_all_spans_witness :
  Z.of_nat (length sample_list) ≤ SIZE_MAX ∧
  Forall (λ span, length span = 5%nat) (quoted_spans sample_list) ∧
  parse_words sample_list = [hello; abcde].
Proof.
  assert (Z.of_nat (length sample_list) ≤ SIZE_MAX) as Hsize
    by (vm_compute; discriminate).
  assert (Forall (λ span, length span = 5%nat) (quoted_spans sample_list)) as Hall
    by (vm_compute; repeat constructor).
  split; [exact Hsize|]. split; [exact Hall|].
  rewrite (parse_words_all_spans sample_list Hsize Hall). reflexivity.
Defined.

(** ** [ThreadPool]: every schedule *)

Lemma sum_list_with_insert {A} (f : A → nat) (l : list A) (j : nat) (x y : A) :
  l !! j = Some y →
  (sum_list_with f (<[j := x]> l) + f y = sum_list_with f l + f x)%nat.
Proof.
  revert j. induction l as [|z l IH]; intros j Hj; [done|].
  destruct j as [|j]; simpl in *.
  - injection Hj as ->. lia.
  - specialize (IH j Hj). lia.
Qed.

(** Every step of every thread lowers the measure. *)
Lemma step_potential words targets t p p' :
  step words targets t p = Some p' →
  (potential (length words) p' < potential (length words) p)%nat.
Proof.
  intros Hstep. unfold potential. destruct t as [|j]; simpl in Hstep.
  - unfold caller_step, submit in Hstep.
    destruct (caller p) as [i|k|] eqn:Hc; [| |done].
    + destruct (decide (i < length words)%nat); injection Hstep as <-; simpl.
      * rewrite length_app. simpl. lia.
      * lia.
    + destruct (threads_ p !! k) as [[| |]|] eqn:Hk; try done; injection Hstep as <-; simpl.
      * apply lookup_lt_Some in Hk. lia.
      * lia.
  - unfold run_step in Hstep.
    destruct (threads_ p !! j) as [[|i|]|] eqn:Hj; try done.
    + destruct (queue_ p) as [|i rest]; injection Hstep as <-; simpl;
        rewrite length_insert.
      * pose proof (sum_list_with_insert worker_potential _ j Exited _ Hj). simpl in *. lia.
      * pose proof (sum_list_with_insert worker_potential _ j (Calling i) _ Hj).
        simpl in *. lia.
    + destruct (words !! i) as [w|]; [|done]. simpl in Hstep. injection Hstep as <-.
      simpl. rewrite length_insert.
      pose proof (sum_list_with_insert worker_potential _ j Polling _ Hj). simpl in *. lia.
Qed.

Lemma run_schedule_cons words targets t schedule p :
  run_schedule words targets (t :: schedule) p =
  step words targets t p ≫= run_schedule words targets schedule.
Proof.
  unfold run_schedule. simpl.
  destruct (step words targets t p); simpl; [done|apply run_schedule_None].
Qed.

Lemma run_schedule_potential words targets schedule p p' :
  run_schedule words targets schedule p = Some p' →
  (length schedule + potential (length words) p' ≤ potential (length words) p)%nat.
Proof.
  revert p. induction schedule as [|t schedule IH]; intros p Hrun.
  - injection Hrun as <-. simpl. lia.
  - rewrite run_schedule_cons in Hrun.
    destruct (step words targets t p) as [p1|] eqn:Hstep; [|done]. simpl in Hrun.
    specialize (IH p1 Hrun). apply step_potential in Hstep. simpl. lia.
Qed.

Lemma potential_init threads n :
  potential n (ThreadPool_init threads n) = (3 * n + 2 * (threads `max` 1) + 2)%nat.
Proof.
  unfold potential, ThreadPool_init. simpl.
  rewrite length_replicate, Nat.sub_0_r.
  assert (∀ k, sum_list_with worker_potential (replicate k Polling) = k) as ->.
  { induction k as [|k IH]; simpl; [done|]. by rewrite IH. }
  lia.
Qed.

(** X17: the pool cannot run for ever: a schedule whose every turn is a step
    of the thread it names has at most [3 n + 2 max(threads, 1) + 2] turns,
    for [n] words. *)
Theorem schedule_length_bound threads words targets schedule p :
  run_schedule words targets schedule (ThreadPool_init threads (length words)) = Some p →
  (length schedule ≤ 3 * length words + 2 * (threads `max` 1) + 2)%nat.
Proof.
  intros Hrun. apply run_schedule_potential in Hrun.
  rewrite potential_init in Hrun. lia.
Qed.

Lemma schedule_length_bound_witness :
  run_schedule [abcde] [abcde]
    [CallerTurn; WorkerTurn 0; WorkerTurn 0; WorkerTurn 0; CallerTurn; CallerTurn; CallerTurn]
    (ThreadPool_init 1 (length [abcde])) =
    Some (MkPool [Exited] [] [1] Returned) ∧
  (7 ≤ 3 * length [abcde] + 2 * (1 `max` 1) + 2)%nat.
Proof.
  assert (run_schedule [abcde] [abcde]
    [CallerTurn; WorkerTurn 0; WorkerTurn 0; WorkerTurn 0; CallerTurn; CallerTurn; CallerTurn]
    (ThreadPool_init 1 (length [abcde])) = Some (MkPool [Exited] [] [1] Returned)) as Hrun
    by reflexivity.
  split; [exact Hrun|].
  exact (schedule_length_bound 1 [abcde] [abcde] _ _ Hrun).
Defined.

Lemma tasks_valid_init threads n : tasks_valid n (ThreadPool_init threads n).
Proof.
  split; simpl.
  - intros i Hi. by apply elem_of_nil in Hi.
  - intros i Hi. apply list_elem_of_lookup in Hi as [j Hj].
    by apply lookup_replicate in Hj as [? _].
Qed.

Lemma tasks_valid_step words targets t p p' :
  step words targets t p = Some p' →
  tasks_valid (length words) p → tasks_valid (length words) p'.
Proof.
  intros Hstep [Hq Hc]. destruct t as [|j]; simpl in Hstep.
  - unfold caller_step, submit in Hstep.
    destruct (caller p) as [i|k|]; [| |done].
    + destruct (decide (i < length words)%nat); injection Hstep as <-; split; simpl; try done.
      intros i' Hi'. apply elem_of_app in Hi' as [Hi'|Hi']; [by apply Hq|].
      by apply list_elem_of_singleton in Hi' as ->.
    + destruct (threads_ p !! k) as [[| |]|]; try done; by injection Hstep as <-.
  - unfold run_step in Hstep.
    destruct (threads_ p !! j) as [[|i|]|] eqn:Hj; try done.
    + destruct (queue_ p) as [|i rest] eqn:Hqueue; injection Hstep as <-; split; simpl.
      * intros i Hi. by apply elem_of_nil in Hi.
      * intros i Hi. apply elem_of_list_insert in Hi as [?|Hi]; [done|by apply Hc].
      * intros i' Hi'. apply Hq. by right.
      * intros i' Hi'. apply elem_of_list_insert in Hi' as [[= ->]|Hi']; [|by apply Hc].
        apply Hq. by left.
    + destruct (words !! i) as [w|]; [|done]. simpl in Hstep. injection Hstep as <-.
      split; simpl; [done|].
      intros i' Hi'. apply elem_of_list_insert in Hi' as [?|Hi']; [done|by apply Hc].
Qed.

Lemma tasks_valid_run words targets schedule p p' :
  run_schedule words targets schedule p = Some p' →
  tasks_valid (length words) p → tasks_valid (length words) p'.
Proof.
  revert p. induction schedule as [|t schedule IH]; intros p Hrun Hvalid.
  - by injection Hrun as <-.
  - rewrite run_schedule_cons in Hrun.
    destruct (step words targets t p) as [p1|] eqn:Hstep; [|done]. simpl in Hrun.
    apply (IH p1 Hrun). by eapply tasks_valid_step.
Qed.

(** As long as the caller has not returned, some thread can take a step. *)
Lemma step_enabled words targets p :
  tasks_valid (length words) p → caller p ≠ Returned →
  ∃ t p', step words targets t p = Some p'.
Proof.
  intros [Hq Hc] Hret.
  destruct (caller p) as [i|j|] eqn:Hcaller; [| |done].
  - exists CallerTurn. simpl. unfold caller_step. rewrite Hcaller.
    destruct (decide _); eauto.
  - destruct (threads_ p !! j) as [[|i|]|] eqn:Hj.
    + exists (WorkerTurn j). simpl. unfold run_step. rewrite Hj.
      destruct (queue_ p); eauto.
    + exists (WorkerTurn j). simpl. unfold run_step. rewrite Hj.
      assert (i < length words)%nat as Hi.
      { apply Hc. apply list_elem_of_lookup. eauto. }
      destruct (lookup_lt_is_Some_2 words i Hi) as [w ->]. simpl. eauto.
    + exists CallerTurn. simpl. unfold caller_step. rewrite Hcaller, Hj. eauto.
    + exists CallerTurn. simpl. unfold caller_step. rewrite Hcaller, Hj. eauto.
Qed.

Lemma run_to_return words targets (k : nat) p :
  (potential (length words) p ≤ k)%nat →
  tasks_valid (length words) p →
  ∃ rest p', run_schedule words targets rest p = Some p' ∧ caller p' = Returned.
Proof.
  revert p. induction k as [|k IH]; intros p Hk Hvalid.
  - destruct (decide (caller p = Returned)) as [Hret|Hret].
    + by exists [], p.
    + destruct (step_enabled words targets p Hvalid Hret) as (t & p1 & Hstep).
      apply step_potential in Hstep. lia.
  - destruct (decide (caller p = Returned)) as [Hret|Hret].
    + by exists [], p.
    + destruct (step_enabled words targets p Hvalid Hret) as (t & p1 & Hstep).
      destruct (IH p1) as (rest & p' & Hrun & Hcaller).
      * apply step_potential in Hstep. lia.
      * by eapply tasks_valid_step.
      * exists (t :: rest), p'. split; [|done].
        rewrite run_schedule_cons, Hstep. done.
Qed.

(** X18: the pool never gets stuck: whatever turns have been taken, the
    schedule can be continued until [compute_sum_of_squares_ranks] returns a
    table. *)
Theorem schedule_can_finish threads words targets schedule p :
  run_schedule words targets schedule (ThreadPool_init threads (length words)) = Some p →
  ∃ rest table,
    compute_sum_of_squares_ranks threads words targets (schedule ++ rest) = Some table.
Proof.
  intros Hrun.
  destruct (run_to_return words targets (potential (length words) p) p) as
    (rest & p' & Hrest & Hcaller); [done| |].
  { eapply tasks_valid_run; [done|]. apply tasks_valid_init. }
  exists rest, (result p'). unfold compute_sum_of_squares_ranks.
  rewrite run_schedule_app, Hrun. simpl. rewrite Hrest. simpl. by rewrite Hcaller.
Qed.

Lemma schedule_can_finish_witness :
  run_schedule [abcde] [abcde] [CallerTurn; WorkerTurn 0]
    (ThreadPool_init 1 (length [abcde])) =
    Some (MkPool [Calling 0] [] [0] (Submitting 1)) ∧
  ∃ rest table,
    compute_sum_of_squares_ranks 1 [abcde] [abcde]
      ([CallerTurn; WorkerTurn 0] ++ rest) = Some table.
Proof.
  assert (run_schedule [abcde] [abcde] [CallerTurn; WorkerTurn 0]
    (ThreadPool_init 1 (length [abcde])) =
    Some (MkPool [Calling 0] [] [0] (Submitting 1))) as Hrun by reflexivity.
  split; [exact Hrun|].
  exact (schedule_can_finish 1 [abcde] [abcde] _ _ Hrun).
Defined.

(** X19: whatever the schedule, the table the function returns has one slot
    per word, and a slot holds either the 0 it was created with or the score
    of its word against the targets: the threads write nothing else. *)
Theorem table_slots_zero_or_score threads words targets schedule table :
  compute_sum_of_squares_ranks threads words targets schedule = Some table →
  length table = length words ∧
  ∀ i r, table !! i = Some r →
         r = 0 ∨ ∃ w, words !! i = Some w ∧ r = score w targets.
Proof. apply compute_sum_of_squares_ranks_entries. Qed.

Lemma table_slots_zero_or_score_witness :
  compute_sum_of_squares_ranks 2 [abcde; hello] [abcde; edcba]
    [CallerTurn; WorkerTurn 0; WorkerTurn 0; WorkerTurn 0; WorkerTurn 1;
     CallerTurn; CallerTurn; CallerTurn; CallerTurn; CallerTurn] = Some [2; 0] ∧
  length [2; 0] = length [abcde; hello].
Proof.
  assert (compute_sum_of_squares_ranks 2 [abcde; hello] [abcde; edcba]
    [CallerTurn; WorkerTurn 0; WorkerTurn 0; WorkerTurn 0; WorkerTurn 1;
     CallerTurn; CallerTurn; CallerTurn; CallerTurn; CallerTurn] = Some [2; 0]) as Hrun
    by reflexivity.
  split; [exact Hrun|].
  exact (proj1 (table_slots_zero_or_score 2 _ _ _ _ Hrun)).
Defined.

(** X20: when the caller submits every task before any worker runs, every
    schedule on which the function returns gives the table of the scores. *)
Theorem submit_first_gives_scores threads words targets rest table :
  compute_sum_of_squares_ranks threads words targets
    (replicate (length words) CallerTurn ++ rest) = Some table →
  table = score_table words targets.
Proof. apply submit_first_complete. Qed.

Lemma submit_first_gives_scores_witness :
  compute_sum_of_squares_ranks 1 [abcde] [abcde]
    (replicate (length [abcde]) CallerTurn ++
     [WorkerTurn 0; WorkerTurn 0; WorkerTurn 0; CallerTurn; CallerTurn; CallerTurn])
    = Some [1] ∧
  [1] = score_table [abcde] [abcde].
Proof.
  assert (compute_sum_of_squares_ranks 1 [abcde] [abcde]
    (replicate (length [abcde]) CallerTurn ++
     [WorkerTurn 0; WorkerTurn 0; WorkerTurn 0; CallerTurn; CallerTurn; CallerTurn])
    = Some [1]) as Hrun by reflexivity.
  split; [exact Hrun|].
  exact (submit_first_gives_scores 1 [abcde] [abcde] _ _ Hrun).
Defined.

Lemma replicate_snoc_app {A} (k : nat) (x : A) (l : list A) :
  replicate k x ++ x :: l = replicate (S k) x ++ l.
Proof. induction k as [|k IH]; simpl; [done|]. by rewrite IH. Qed.

(** Workers that run before anything is submitted find the queue empty and
    leave [run], one after the other. *)
Lemma run_workers_exit words targets (t k : nat) res c :
  (k ≤ t)%nat →
  run_schedule words targets (WorkerTurn <$> seq 0 k) (MkPool (replicate t Polling) [] res c) =
  Some (MkPool (replicate k Exited ++ replicate (t - k) Polling) [] res c).
Proof.
  induction k as [|k IH]; intros Hk.
  - by rewrite Nat.sub_0_r.
  - rewrite seq_S, fmap_app, run_schedule_app, IH by lia. simpl.
    rewrite run_schedule_cons. simpl. unfold run_step. simpl.
    replace (t - k)%nat with (S (t - S k)) by lia.
    rewrite lookup_app_r by (rewrite length_replicate; lia).
    rewrite length_replicate, Nat.sub_diag. simpl.
    rewrite insert_app_r_alt by (rewrite length_replicate; lia).
    rewrite length_replicate, Nat.sub_diag. simpl.
    by rewrite replicate_snoc_app.
Qed.

(** [wait] walks past workers that have all left [run]. *)
Lemma run_joins words targets (t k j : nat) q res :
  (j + k = t)%nat →
  run_schedule words targets (replicate k CallerTurn)
    (MkPool (replicate t Exited) q res (Joining j)) =
  Some (MkPool (replicate t Exited) q res (Joining t)).
Proof.
  revert j. induction k as [|k IH]; intros j Hj.
  - rewrite Nat.add_0_r in Hj. by subst j.
  - simpl. rewrite run_schedule_cons. simpl. unfold caller_step. simpl.
    rewrite lookup_replicate_2 by lia. simpl. apply IH. lia.
Qed.

(** X21: for every word list, target list and number of threads, under the
    schedule that lets every worker run before the caller submits its first
    task, no task is ever called: [wait] returns and the table holds 0 in
    every slot. *)
Theorem workers_first_returns_zeros threads words targets :
  compute_sum_of_squares_ranks threads words targets
    (workers_first (threads `max` 1) (length words)) =
  Some (replicate (length words) 0).
Proof.
  unfold compute_sum_of_squares_ranks, workers_first, ThreadPool_init.
  set (t := (threads `max` 1)%nat). set (n := length words).
  rewrite run_schedule_app, run_workers_exit by done. simpl.
  rewrite Nat.sub_diag, app_nil_r.
  replace (n + t + 2)%nat with (n + (1 + (t + 1)))%nat by lia.
  rewrite !replicate_add, !run_schedule_app.
  rewrite (run_schedule_submits words targets _ _ n 0) by done. simpl.
  rewrite run_schedule_cons. simpl. unfold caller_step at 1. simpl.
  rewrite decide_False by (fold n; lia). simpl.
  rewrite run_schedule_app, (run_joins words targets t t 0) by done. simpl.
  rewrite run_schedule_cons. simpl. unfold caller_step. simpl.
  rewrite (proj1 (lookup_replicate_None t Exited t)) by lia. done.
Qed.

(** ** The histogram and the score, further *)

(** The score in exact arithmetic, in the range where [int64_t] holds it. *)
Lemma score_exact (word : Word) (targets : list Word) :
  Z.of_nat (length targets) * Z.of_nat (length targets) ≤ INT64_MAX →
  score word targets =
    sum_Z ((λ v, v * v) <$> (map_to_list (histogram word targets)).*2) ∧
  sum_Z (map_to_list (histogram word targets)).*2 = Z.of_nat (length targets) ∧
  Forall (λ v, 0 ≤ v) (map_to_list (histogram word targets)).*2.
Proof.
  intros Hsq.
  assert (Z.of_nat (length targets) ≤ INT64_MAX) as Hlen by nia.
  split; [|split].
  - unfold score. apply sum_of_squares_exact.
    + by apply histogram_nonneg.
    + by rewrite histogram_total_targets.
  - by rewrite <- histogram_total_foldr, histogram_total_targets.
  - apply Forall_fmap, Forall_forall. intros [k v] Hkv. simpl.
    apply elem_of_map_to_list in Hkv. by apply (histogram_nonneg word targets Hlen k v).
Qed.

Lemma score_counts (word : Word) (targets : list Word) :
  Z.of_nat (length targets) * Z.of_nat (length targets) ≤ INT64_MAX →
  score word targets = sum_of_squared_counts (codes word targets).
Proof.
  intros Hsq.
  assert (Z.of_nat (length targets) ≤ INT64_MAX) as Hlen by nia.
  rewrite (proj1 (score_exact word targets Hsq)).
  unfold sum_of_squared_counts.
  apply sum_Z_perm. rewrite (histogram_to_list word targets Hlen).
  by rewrite <- !list_fmap_compose.
Qed.

Lemma sum_Z_le_squares (l : list Z) :
  Forall (λ v, 0 ≤ v) l → sum_Z l ≤ sum_Z ((λ v, v * v) <$> l).
Proof.
  induction 1 as [|v l Hv _ IH]; [done|].
  rewrite fmap_cons, !sum_Z_cons. nia.
Qed.

(** X22: in the histogram of a guess, the bucket of a feedback code holds the
    number of targets with that code, and a code that no target has is not a
    key. *)
Theorem histogram_bucket (word : Word) (targets : list Word) (c : Z) :
  Z.of_nat (length targets) ≤ INT64_MAX →
  histogram word targets !! c =
    if decide (c ∈ codes word targets)
    then Some (occurrences c (codes word targets))
    else None.
Proof.
  intros Hlen. rewrite histogram_lookup by done.
  destruct (decide (occurrences c (codes word targets) = 0)) as [Hz|Hz].
  - rewrite decide_False; [done|]. intros Hin. by apply occurrences_pos_elem_of in Hin.
  - rewrite decide_True; [done|]. by apply occurrences_pos_elem_of.
Qed.

Lemma histogram_bucket_witness :
  Z.of_nat (length [abcde; edcba; hello; edcba]) ≤ INT64_MAX ∧
  histogram abcde [abcde; edcba; hello; edcba] !! compute_marks abcde edcba = Some 2.
Proof.
  split; [vm_compute; discriminate|].
  rewrite (histogram_bucket abcde [abcde; edcba; hello; edcba]) by (vm_compute; discriminate).
  reflexivity.
Defined.

(** X23: against [n] targets the score of a guess lies between [n] and
    [n * n]. *)
Theorem score_bounds (word : Word) (targets : list Word) :
  Z.of_nat (length targets) * Z.of_nat (length targets) ≤ INT64_MAX →
  Z.of_nat (length targets) ≤ score word targets ≤
    Z.of_nat (length targets) * Z.of_nat (length targets).
Proof.
  intros Hsq. destruct (score_exact word targets Hsq) as (-> & Htotal & Hpos).
  pose proof (sum_Z_le_squares _ Hpos). pose proof (sum_Z_squares_le _ Hpos).
  rewrite Htotal in *. lia.
Qed.

Lemma score_bounds_witness :
  Z.of_nat (length [abcde; edcba; hello; edcba]) *
    Z.of_nat (length [abcde; edcba; hello; edcba]) ≤ INT64_MAX ∧
  4 ≤ score abcde [abcde; edcba; hello; edcba] ≤ 16.
Proof.
  split; [vm_compute; discriminate|].
  apply (score_bounds abcde [abcde; edcba; hello; edcba]). vm_compute. discriminate.
Defined.

Lemma occurrences_perm (c : Z) (cs cs' : list Z) :
  cs ≡ₚ cs' → occurrences c cs = occurrences c cs'.
Proof. intros Hperm. unfold occurrences. by rewrite Hperm. Qed.

Lemma sum_of_squared_counts_perm (cs cs' : list Z) :
  cs ≡ₚ cs' → sum_of_squared_counts cs = sum_of_squared_counts cs'.
Proof.
  intros Hperm. unfold sum_of_squared_counts. apply sum_Z_perm.
  assert ((λ c, occurrences c cs' * occurrences c cs') <$> remove_dups cs' =
          (λ c, occurrences c cs * occurrences c cs) <$> remove_dups cs') as ->.
  { apply list_fmap_ext. intros _ c _. by rewrite (occurrences_perm c cs cs'). }
  apply fmap_Permutation. apply NoDup_Permutation; [apply NoDup_remove_dups..|].
  intros c. by rewrite !elem_of_remove_dups, Hperm.
Qed.

(** X24: the score of a guess does not depend on the order of the targets. *)
Theorem score_permutation (word : Word) (targets targets' : list Word) :
  Z.of_nat (length targets) * Z.of_nat (length targets) ≤ INT64_MAX →
  targets ≡ₚ targets' →
  score word targets = score word targets'.
Proof.
  intros Hsq Hperm.
  rewrite !score_counts; [|by rewrite <- Hperm|done].
  apply sum_of_squared_counts_perm. unfold codes. by rewrite Hperm.
Qed.

Lemma score_permutation_witness :
  Z.of_nat (length [abcde; edcba; hello]) * Z.of_nat (length [abcde; edcba; hello])
    ≤ INT64_MAX ∧
  [abcde; edcba; hello] ≡ₚ [hello; abcde; edcba] ∧
  score abcde [abcde; edcba; hello] = score abcde [hello; abcde; edcba].
Proof.
  assert ([abcde; edcba; hello] ≡ₚ [hello; abcde; edcba]) as Hperm.
  { symmetry. apply (Permutation_cons_append [abcde; edcba] hello). }
  split; [vm_compute; discriminate|]. split; [exact Hperm|].
  apply (score_permutation abcde _ _); [vm_compute; discriminate | exact Hperm].
Defined.

Lemma occurrences_cons (c x : Z) (cs : list Z) :
  occurrences c (x :: cs) = (if decide (x = c) then 1 else 0) + occurrences c cs.
Proof.
  unfold occurrences. rewrite filter_cons.
  destruct (decide (x = c)); simpl; lia.
Qed.

Lemma NoDup_occurrences (cs : list Z) :
  NoDup cs ↔ ∀ c, c ∈ cs → occurrences c cs ≤ 1.
Proof.
  induction cs as [|x cs IH].
  - split; [|constructor]. intros _ c Hc. by apply elem_of_nil in Hc.
  - rewrite NoDup_cons, IH. split.
    + intros [Hx Hcs] c Hc. rewrite occurrences_cons.
      destruct (decide (x = c)) as [->|Hne].
      * destruct (decide (occurrences c cs = 0)) as [->|Hz]; [done|].
        by apply occurrences_pos_elem_of in Hz.
      * apply elem_of_cons in Hc as [->|Hc]; [done|]. by apply Hcs.
    + intros Hall. split.
      * intros Hx. specialize (Hall x ltac:(left)). rewrite occurrences_cons in Hall.
        rewrite decide_True in Hall by done.
        apply occurrences_pos_elem_of in Hx.
        pose proof (occurrences_nonneg x cs). lia.
      * intros c Hc. specialize (Hall c ltac:(by right)).
        rewrite occurrences_cons in Hall. destruct (decide (x = c)); lia.
Qed.

Lemma sum_Z_squares_eq (l : list Z) :
  Forall (λ v, 0 ≤ v) l →
  sum_Z ((λ v, v * v) <$> l) = sum_Z l ↔ Forall (λ v, v ≤ 1) l.
Proof.
  induction 1 as [|v l Hv Hl IH]; [done|].
  rewrite fmap_cons, !sum_Z_cons, Forall_cons, <- IH.
  pose proof (sum_Z_le_squares l Hl). split; [|intros [? ->]]; nia.
Qed.

(** X25: against [n] targets a guess reaches the lowest score, [n], exactly
    when no two targets give it the same feedback code. *)
Theorem score_lowest_iff (word : Word) (targets : list Word) :
  Z.of_nat (length targets) * Z.of_nat (length targets) ≤ INT64_MAX →
  score word targets = Z.of_nat (length targets) ↔ NoDup (codes word targets).
Proof.
  intros Hsq.
  assert (Z.of_nat (length targets) ≤ INT64_MAX) as Hlen by nia.
  destruct (score_exact word targets Hsq) as (-> & Htotal & Hpos).
  rewrite <- Htotal at 1. rewrite (sum_Z_squares_eq _ Hpos).
  rewrite (histogram_to_list word targets Hlen), <- list_fmap_compose.
  rewrite Forall_fmap, Forall_forall, NoDup_occurrences.
  by setoid_rewrite elem_of_remove_dups.
Qed.

Lemma score_lowest_iff_witness :
  Z.of_nat (length [abcde; edcba; hello]) * Z.of_nat (length [abcde; edcba; hello])
    ≤ INT64_MAX ∧
  score abcde [abcde; edcba; hello] = 3 ∧
  NoDup (codes abcde [abcde; edcba; hello]).
Proof.
  split; [vm_compute; discriminate|]. split; [reflexivity|].
  apply (score_lowest_iff abcde [abcde; edcba; hello]);
    [vm_compute; discriminate | reflexivity].
Defined.

(** ** [parse_words]: size of the result *)

Lemma parse_state_count (text : list ascii) :
  Z.of_nat (length text) ≤ SIZE_MAX →
  7 * Z.of_nat (length (parse_state text).2) ≤ Z.of_nat (length text).
Proof.
  intros Hsize. unfold parse_state.
  pose proof (for_range_ind
    (λ i st, 7 * Z.of_nat (length st.2) ≤ i ∧
             (st.1 ≠ none → 0 ≤ st.1 < i ∧ 7 * Z.of_nat (length st.2) ≤ st.1))
    (Z.of_nat (length text)) (parse_body text) (none, [])) as Hind.
  apply Hind; [lia|simpl; split; [lia|done]|].
  intros i [lq ws] Hi [Hcount Hlq]. simpl in Hcount, Hlq. unfold parse_body.
  destruct (text !! Z.to_nat i) as [c|] eqn:Hc; [|simpl; split; [lia|]; intros H; specialize (Hlq H); lia].
  destruct (Ascii.eqb c quote) eqn:Hq; [|simpl; split; [lia|]; intros H; specialize (Hlq H); lia].
  destruct (lq =? none) eqn:Hnone; [simpl; split; [lia|]; intros _; lia|].
  apply Z.eqb_neq in Hnone. specialize (Hlq Hnone).
  destruct (wrap_size (i - lq) =? 6) eqn:Hdist; [|simpl; split; [lia|]; intros _; lia].
  apply Z.eqb_eq in Hdist. unfold wrap_size, SIZE_MAX in *.
  rewrite Z.mod_small in Hdist by lia.
  destruct (Word_of_span _); simpl; [|split; [lia|]; intros _; lia].
  rewrite length_app. simpl. split; [lia|done].
Qed.

(** X26: each word returned accounts for seven characters of the text of its
    own, its two quotes and its five letters: seven times the number of words
    is at most the length of the text. *)
Theorem parse_words_count (text : list ascii) :
  Z.of_nat (length text) ≤ SIZE_MAX →
  7 * Z.of_nat (length (parse_words text)) ≤ Z.of_nat (length text).
Proof. apply parse_state_count. Qed.

Lemma parse_words_count_witness :
  Z.of_nat (length sample_list) ≤ SIZE_MAX ∧
  7 * Z.of_nat (length (parse_words sample_list)) ≤ Z.of_nat (length sample_list).
Proof.
  split; [vm_compute; discriminate|].
  apply (parse_words_count sample_list). vm_compute. discriminate.
Defined.

(** ** [main] *)

Section main_correct.
Variable std_nth_element : (nat → nat → bool) → nat → list nat → list nat.
Variable std_sort : (nat → nat → bool) → list nat → list nat.
Hypothesis nth_element_perm : ∀ comp nth l, std_nth_element comp nth l ≡ₚ l.
Hypothesis nth_element_partitioned : ∀ comp nth l,
  strict_weak_order comp → (nth ≤ length l)%nat →
  partitioned_at comp nth (std_nth_element comp nth l).
Hypothesis sort_perm : ∀ comp l, std_sort comp l ≡ₚ l.
Hypothesis sort_sorted : ∀ comp l,
  strict_weak_order comp → sorted_wrt comp (std_sort comp l).

(** With the count [main] passes, the whole table is written, in ascending
    order of rank. *)
Lemma print_all_sorted (words : list Word) (ranks : list Z) :
  length ranks = length words →
  Z.of_nat (length words) ≤ SIZE_MAX →
  ∃ out, print_best_sum_of_squares_ranks std_nth_element std_sort words ranks
           main_show_count = Some out ∧
         out ≡ₚ zip words ranks ∧ ascending out.
Proof.
  intros Hlen Hsize.
  assert (0 ≤ main_show_count) as Hk by (by vm_compute).
  assert (Z.of_nat (length words) ≤ main_show_count) as Hall by done.
  destruct (best_indices_correct std_nth_element std_sort nth_element_perm
              nth_element_partitioned sort_perm sort_sorted words ranks main_show_count Hk)
    as (best & Hbest & _ & Hlt & _ & Hsorted & _ & Hperm).
  specialize (Hperm Hall).
  assert (is_Some (mapM (entry words ranks) best)) as [out Hout].
  { apply mapM_is_Some, Forall_forall. intros idx Hidx.
    destruct (entry_in_bounds words ranks idx Hlen (Hlt idx Hidx))
      as (w & r & _ & _ & He).
    simpl. by rewrite He. }
  exists out. split; [unfold print_best_sum_of_squares_ranks; by rewrite Hbest|].
  apply mapM_Some in Hout. split.
  - destruct (Permutation_Forall2 Hperm Hout) as (out' & Hperm' & Hout').
    rewrite Hperm'. by rewrite (entries_iota words ranks out' Hlen Hout').
  - intros i j e1 e2 Hij H1 H2.
    destruct (Forall2_lookup_r _ _ _ _ _ Hout H1) as (a & Ha & Hea).
    destruct (Forall2_lookup_r _ _ _ _ _ Hout H2) as (b & Hb & Heb).
    apply entry_Some in Hea as [_ Hra]. apply entry_Some in Heb as [_ Hrb].
    pose proof (Hsorted i j a b Hij Ha Hb) as Hcmp.
    unfold compare in Hcmp. apply bool_decide_eq_false in Hcmp.
    rewrite !list_lookup_total_alt, Hra, Hrb in Hcmp. simpl in Hcmp. lia.
Qed.

Lemma main_words_size (files : gmap string (list ascii)) :
  Z.of_nat (length (read_whole_file files "words.txt")) ≤ SIZE_MAX →
  Z.of_nat (length (parse_words (read_whole_file files "words.txt"))) ≤ SIZE_MAX.
Proof.
  intros Hsize. pose proof (parse_state_count _ Hsize) as Hcount.
  rewrite <- parse_words_state in Hcount. lia.
Qed.

Lemma main_table (files : gmap string (list ascii)) threads schedule ranks :
  Z.of_nat (length (read_whole_file files "words.txt")) ≤ SIZE_MAX →
  compute_sum_of_squares_ranks threads
    (parse_words (read_whole_file files "words.txt"))
    (parse_words (read_whole_file files "targets.txt")) schedule = Some ranks →
  ∃ out, main std_nth_element std_sort files threads schedule = Some out ∧
         out ≡ₚ zip (parse_words (read_whole_file files "words.txt")) ranks ∧
         ascending out.
Proof.
  intros Hsize Hrun. unfold main. rewrite Hrun. simpl.
  apply print_all_sorted; [|by apply main_words_size].
  by apply (compute_sum_of_squares_ranks_entries _ _ _ _ _ Hrun).
Qed.

(** X27: whenever the pool returns its table, [main] runs to its end without
    leaving a range and writes one line per word parsed from "words.txt",
    each with the rank the table holds for it, in ascending order of rank. *)
Theorem main_prints_every_word (files : gmap string (list ascii)) threads schedule ranks :
  Z.of_nat (length (read_whole_file files "words.txt")) ≤ SIZE_MAX →
  compute_sum_of_squares_ranks threads
    (parse_words (read_whole_file files "words.txt"))
    (parse_words (read_whole_file files "targets.txt")) schedule = Some ranks →
  ∃ out, main std_nth_element std_sort files threads schedule = Some out ∧
         out ≡ₚ zip (parse_words (read_whole_file files "words.txt")) ranks ∧
         ascending out.
Proof. apply main_table. Qed.

(** X28: when the caller submits every task before any worker runs, the lines
    [main] writes are the words with their scores against the targets, in
    ascending order of score. *)
Theorem main_submit_first (files : gmap string (list ascii)) threads rest out :
  let words := parse_words (read_whole_file files "words.txt") in
  let targets := parse_words (read_whole_file files "targets.txt") in
  Z.of_nat (length (read_whole_file files "words.txt")) ≤ SIZE_MAX →
  main std_nth_element std_sort files threads
    (replicate (length words) CallerTurn ++ rest) = Some out →
  out ≡ₚ zip words (score_table words targets) ∧ ascending out.
Proof.
  intros words targets Hsize Hmain.
  destruct (compute_sum_of_squares_ranks threads words targets
              (replicate (length words) CallerTurn ++ rest)) as [ranks|] eqn:Hrun.
  - destruct (main_table files threads _ ranks Hsize Hrun) as (out' & Hout' & Hperm & Hasc).
    fold words in Hout', Hperm. rewrite Hmain in Hout'. injection Hout' as <-.
    by rewrite <- (submit_first_complete _ _ _ _ _ Hrun).
  - unfold main in Hmain. fold words targets in Hmain. by rewrite Hrun in Hmain.
Qed.

(** X29: when "words.txt" cannot be read, [main] writes nothing. *)
Theorem main_without_words (files : gmap string (list ascii)) threads schedule out :
  files !! "words.txt" = None →
  main std_nth_element std_sort files threads schedule = Some out →
  out = [].
Proof.
  intros Hmissing Hmain.
  assert (parse_words (read_whole_file files "words.txt") = []) as Hwords.
  { unfold read_whole_file. by rewrite Hmissing. }
  assert (Z.of_nat (length (read_whole_file files "words.txt")) ≤ SIZE_MAX) as Hsize.
  { unfold read_whole_file. rewrite Hmissing. by vm_compute. }
  destruct (compute_sum_of_squares_ranks threads
              (parse_words (read_whole_file files "words.txt"))
              (parse_words (read_whole_file files "targets.txt")) schedule)
    as [ranks|] eqn:Hrun.
  - destruct (main_table files threads _ ranks Hsize Hrun) as (out' & Hout' & Hperm & _).
    rewrite Hmain in Hout'. injection Hout' as <-.
    rewrite Hwords in Hperm. simpl in Hperm. by apply Permutation_nil_r in Hperm.
  - unfold main in Hmain. by rewrite Hrun in Hmain.
Qed.

End main_correct.

Lemma sample_run :
  compute_sum_of_squares_ranks 1
    (parse_words (read_whole_file sample_files "words.txt"))
    (parse_words (read_whole_file sample_files "targets.txt")) sample_schedule =
  Some [1; 1].
Proof. by vm_compute. Qed.

Lemma sample_size :
  Z.of_nat (length (read_whole_file sample_files "words.txt")) ≤ SIZE_MAX.
Proof. by vm_compute. Qed.

Lemma main_prints_every_word_witness :
  Z.of_nat (length (read_whole_file sample_files "words.txt")) ≤ SIZE_MAX ∧
  ∃ out, main nth_element_impl sort_impl sample_files 1 sample_schedule = Some out ∧
         out ≡ₚ zip (parse_words (read_whole_file sample_files "words.txt")) [1; 1].
Proof.
  split; [exact sample_size|].
  destruct (main_prints_every_word nth_element_impl sort_impl
              nth_element_impl_perm nth_element_impl_partitioned
              sort_impl_perm sort_impl_sorted
              sample_files 1 sample_schedule [1; 1] sample_size sample_run)
    as (out & Hmain & Hperm & _).
  exists out. split; [exact Hmain | exact Hperm].
Defined.

Lemma sample_main :
  main nth_element_impl sort_impl sample_files 1 sample_schedule =
  Some [(hello, 1); (abcde, 1)].
Proof. by vm_compute. Qed.

Lemma main_submit_first_witness :
  Z.of_nat (length (read_whole_file sample_files "words.txt")) ≤ SIZE_MAX ∧
  main nth_element_impl sort_impl sample_files 1 sample_schedule =
    Some [(hello, 1); (abcde, 1)] ∧
  [(hello, 1); (abcde, 1)] ≡ₚ
    zip (parse_words (read_whole_file sample_files "words.txt"))
        (score_table (parse_words (read_whole_file sample_files "words.txt"))
                     (parse_words (read_whole_file sample_files "targets.txt"))).
Proof.
  split; [exact sample_size|]. split; [exact sample_main|].
  apply (main_submit_first nth_element_impl sort_impl
           nth_element_impl_perm nth_element_impl_partitioned
           sort_impl_perm sort_impl_sorted
           sample_files 1
           [WorkerTurn 0; WorkerTurn 0; WorkerTurn 0; WorkerTurn 0; WorkerTurn 0;
            CallerTurn; CallerTurn; CallerTurn]
           [(hello, 1); (abcde, 1)] sample_size sample_main).
Defined.

Lemma main_without_words_witness :
  (∅ : gmap string (list ascii)) !! "words.txt" = None ∧
  ∃ out, main nth_element_impl sort_impl ∅ 1
           [WorkerTurn 0; CallerTurn; CallerTurn; CallerTurn] = Some out ∧
         out = [].
Proof.
  assert (main nth_element_impl sort_impl ∅ 1
            [WorkerTurn 0; CallerTurn; CallerTurn; CallerTurn] = Some []) as Hmain
    by (by vm_compute).
  assert ((∅ : gmap string (list ascii)) !! "words.txt" = None) as Hmissing
    by reflexivity.
  split; [exact Hmissing|]. exists []. split; [exact Hmain|].
  apply (main_without_words nth_element_impl sort_impl
           nth_element_impl_perm nth_element_impl_partitioned
           sort_impl_perm sort_impl_sorted
           ∅ 1 [WorkerTurn 0; CallerTurn; CallerTurn; CallerTurn] [] Hmissing Hmain).
Defined.

